(** * NOrec software transactional memory (norec_cgrundey_umap.cpp)

    A shallow embedding of the transactional engine of the repository:
    the shared account vector and the global sequence clock, the
    thread-local read set, write set and start version, and the functions
    [tx_validate], [tx_begin], [tx_write], [tx_read], [tx_commit] together
    with the benchmark thread [th_run], the start-up of [main] and the
    [barrier].

    The engine is concurrent, so every function is given as a labelled
    step function over explicit control points: one step performs at most
    one access to shared memory.  The same step function is then run
    alone (with fuel), against an arbitrary environment, and inside a
    system of threads picked by a schedule. *)

From Stdlib Require Import ZArith Lia.
From stdpp Require Import base option list gmap relations.

Local Open Scope Z_scope.

(** ** Machine integers

    [global_clock] and [rv] are [unsigned int], the local [temp] of
    [tx_validate] and the account values are [int]; both are 32 bits
    wide.  Conversions and arithmetic wrap around. *)

Definition to_uint (z : Z) : Z := z mod 2 ^ 32.

Definition to_int (z : Z) : Z := (z + 2 ^ 31) mod 2 ^ 32 - 2 ^ 31.

Definition is_uint (z : Z) : Prop := 0 ≤ z < 2 ^ 32.

(** ** Data model *)

(** [typedef struct { int addr; int value; } Acct;] *)
Record Acct := mkAcct { addr : Z; value : Z }.

(** The shared state: [vector<Acct> accts] and
    [volatile unsigned int global_clock]. *)
Record Shared := mkShared { accts : list Acct; global_clock : Z }.

(** The thread-local state: [list<Acct> read_set],
    [unordered_map<int,int> write_set] and [unsigned int rv]. *)
Record Tx := mkTx { read_set : list Acct; write_set : gmap Z Z; rv : Z }.

(** [thread_local] initialisation: empty sets and [rv = 0]. *)
Definition tx_init : Tx := mkTx [] ∅ 0.

(** [accts[a]]: indexing a vector outside its bounds is undefined, which
    the embedding reports as [None]. *)
Definition cell (l : list Acct) (a : Z) : option Acct :=
  if 0 <=? a then l !! Z.to_nat a else None.

(** [accts[a].value = v]. *)
Definition store_value (a v : Z) (l : list Acct) : option (list Acct) :=
  match cell l a with
  | Some c => Some (<[Z.to_nat a := mkAcct (addr c) v]> l)
  | None => None
  end.

(** [write_set.emplace(a, v)]: inserts only when the key is absent. *)
Definition emplace (a v : Z) (ws : gmap Z Z) : gmap Z Z :=
  match ws !! a with
  | Some _ => ws
  | None => <[a := v]> ws
  end.

(** Sum of all balances, as [main] computes it before and after the run. *)
Definition totalMoney (l : list Acct) : Z :=
  foldr (λ a acc, value a + acc) 0 l.

(** ** Labelled steps *)

(** Accesses to shared memory performed by a step. *)
Inductive Event :=
| LoadClock (c : Z)
| LoadCell (a v : Z)
| CasClock (expected new : Z) (ok : bool)
| StoreCell (a v : Z)
| StoreClock (c : Z).

(** How a call ends: normal return, the exception thrown by [tx_abort],
    or undefined behaviour (an access outside [accts]). *)
Inductive Outcome :=
| RetVoid
| RetVal (v : Z)
| Abort
| Fault.

(** The call sites of [tx_validate]: called on its own, from the loop of
    [tx_read] (line 108) or from the loop of [tx_commit] (line 123). *)
Inductive Caller :=
| K_top
| K_read (a : Z)
| K_commit.

(** Control points; the locals live in the constructor arguments. *)
Inductive Pc :=
| Begin_clear                                     (* lines 88-89 *)
| Begin_spin                                      (* lines 90-92 *)
| Write_emplace (a v : Z)                         (* line 97 *)
| Read_lookup (a : Z)                             (* lines 102-105 *)
| Read_load (a : Z)                               (* line 106 *)
| Read_check (a val : Z)                          (* line 107, 111-113 *)
| Read_reload (a : Z)                             (* line 109 *)
| Val_clock (k : Caller)                          (* lines 73-75 *)
| Val_scan (k : Caller) (temp : Z) (it : list Acct)    (* lines 77-79 *)
| Val_recheck (k : Caller) (temp : Z) (it : list Acct) (* lines 80-81 *)
| Commit_entry                                    (* lines 120-121 *)
| Commit_cas                                      (* line 122 *)
| Commit_wb (pending : list (Z * Z))              (* lines 125-127 *)
| Commit_release.                                 (* line 128 *)

Inductive Next :=
| Goto (pc : Pc)
| Finish (o : Outcome).

Record Step := mkStep {
  st_shared : Shared;
  st_tx : Tx;
  st_event : option Event;
  st_next : Next
}.

(** [tx_abort]: [throw "Transaction ABORTED"]. *)
Definition tx_abort : Next := Finish Abort.

Definition set_rv (t : Tx) (v : Z) : Tx := mkTx (read_set t) (write_set t) v.

Definition set_clock (s : Shared) (c : Z) : Shared := mkShared (accts s) c.

(** [return temp] of [tx_validate], continued at the call site:
    [rv = tx_validate()] converts the [int] back to [unsigned int]. *)
Definition validate_return (k : Caller) (s : Shared) (t : Tx) (temp : Z)
    (e : option Event) : Step :=
  match k with
  | K_top => mkStep s t e (Finish (RetVal temp))
  | K_read a => mkStep s (set_rv t (to_uint temp)) e (Goto (Read_reload a))
  | K_commit => mkStep s (set_rv t (to_uint temp)) e (Goto Commit_cas)
  end.

Definition tx_step (s : Shared) (t : Tx) (pc : Pc) : Step :=
  match pc with
  (* tx_begin *)
  | Begin_clear =>
      mkStep s (mkTx [] ∅ (rv t)) None (Goto Begin_spin)
  | Begin_spin =>
      let c := global_clock s in
      mkStep s (set_rv t c) (Some (LoadClock c))
        (if negb (Z.land c 1 =? 0) then Goto Begin_spin else Finish RetVoid)
  (* tx_write *)
  | Write_emplace a v =>
      mkStep s (mkTx (read_set t) (emplace a v (write_set t)) (rv t)) None
        (Finish RetVoid)
  (* tx_read *)
  | Read_lookup a =>
      match write_set t !! a with
      | Some v => mkStep s t None (Finish (RetVal v))
      | None => mkStep s t None (Goto (Read_load a))
      end
  | Read_load a =>
      match cell (accts s) a with
      | Some c => mkStep s t (Some (LoadCell a (value c))) (Goto (Read_check a (value c)))
      | None => mkStep s t None (Finish Fault)
      end
  | Read_check a val =>
      let c := global_clock s in
      if negb (rv t =? c)
      then mkStep s t (Some (LoadClock c)) (Goto (Val_clock (K_read a)))
      else mkStep s (mkTx (read_set t ++ [mkAcct a val]) (write_set t) (rv t))
             (Some (LoadClock c)) (Finish (RetVal val))
  | Read_reload a =>
      match cell (accts s) a with
      | Some c => mkStep s t (Some (LoadCell a (value c))) (Goto (Read_check a (value c)))
      | None => mkStep s t None (Finish Fault)
      end
  (* tx_validate *)
  | Val_clock k =>
      let temp := to_int (global_clock s) in
      mkStep s t (Some (LoadClock (global_clock s)))
        (if negb (Z.land temp 1 =? 0) then Goto (Val_clock k)
         else Goto (Val_scan k temp (read_set t)))
  | Val_scan k temp it =>
      match it with
      | [] => mkStep s t None (Goto (Val_clock k))
      | e :: rest =>
          match cell (accts s) (addr e) with
          | Some c =>
              mkStep s t (Some (LoadCell (addr e) (value c)))
                (if negb (value e =? value c) then tx_abort
                 else Goto (Val_recheck k temp rest))
          | None => mkStep s t None (Finish Fault)
          end
      end
  | Val_recheck k temp rest =>
      let c := global_clock s in
      if to_uint temp =? c
      then validate_return k s t temp (Some (LoadClock c))
      else mkStep s t (Some (LoadClock c)) (Goto (Val_scan k temp rest))
  (* tx_commit *)
  | Commit_entry =>
      if decide (write_set t = ∅)
      then mkStep s t None (Finish RetVoid)
      else mkStep s t None (Goto Commit_cas)
  | Commit_cas =>
      let c := global_clock s in
      let new := to_uint (rv t + 1) in
      if c =? rv t
      then mkStep (set_clock s new) t (Some (CasClock (rv t) new true))
             (Goto (Commit_wb (map_to_list (write_set t))))
      else mkStep s t (Some (CasClock (rv t) new false))
             (Goto (Val_clock K_commit))
  | Commit_wb pending =>
      match pending with
      | [] => mkStep s t None (Goto Commit_release)
      | (a, v) :: rest =>
          match store_value a v (accts s) with
          | Some l => mkStep (mkShared l (global_clock s)) t
                        (Some (StoreCell a v)) (Goto (Commit_wb rest))
          | None => mkStep s t None (Finish Fault)
          end
      end
  | Commit_release =>
      let new := to_uint (rv t + 2) in
      mkStep (set_clock s new) t (Some (StoreClock new)) (Finish RetVoid)
  end.

(** The operations a caller can invoke, and where each starts. *)
Inductive Op :=
| OpBegin
| OpRead (a : Z)
| OpWrite (a v : Z)
| OpCommit
| OpValidate.

Definition entry (op : Op) : Pc :=
  match op with
  | OpBegin => Begin_clear
  | OpRead a => Read_lookup a
  | OpWrite a v => Write_emplace a v
  | OpCommit => Commit_entry
  | OpValidate => Val_clock K_top
  end.

(** ** Running one thread *)

Definition ev_list (e : option Event) : list Event :=
  match e with
  | Some x => [x]
  | None => []
  end.

(** The cell stores among the events of a trace. *)
Definition stores (tr : list Event) : list (Z * Z) :=
  omap (λ e, match e with StoreCell a v => Some (a, v) | _ => None end) tr.

(** Running a control point alone, with nobody else touching the shared
    state, for at most [fuel] steps. *)
Inductive Run :=
| Done (s : Shared) (t : Tx) (o : Outcome) (tr : list Event)
| Spinning (s : Shared) (t : Tx) (pc : Pc) (tr : list Event).

Definition log (e : option Event) (r : Run) : Run :=
  match r with
  | Done s t o tr => Done s t o (ev_list e ++ tr)
  | Spinning s t pc tr => Spinning s t pc (ev_list e ++ tr)
  end.

Fixpoint run (fuel : nat) (s : Shared) (t : Tx) (pc : Pc) : Run :=
  match fuel with
  | O => Spinning s t pc []
  | S n =>
      let r := tx_step s t pc in
      match st_next r with
      | Finish o => Done (st_shared r) (st_tx r) o (ev_list (st_event r))
      | Goto pc' => log (st_event r) (run n (st_shared r) (st_tx r) pc')
      end
  end.

Definition returned (o : Outcome) : bool :=
  match o with
  | RetVoid | RetVal _ => true
  | Abort | Fault => false
  end.

(** Running against an environment: between two steps of the thread the
    other threads change the shared state as [env] allows. *)
Section Exec.
Variable env : relation Shared.

Inductive exec : Shared → Tx → Pc → list Event → Shared → Tx → Outcome → Prop :=
| exec_finish s t pc o :
    st_next (tx_step s t pc) = Finish o →
    exec s t pc (ev_list (st_event (tx_step s t pc)))
      (st_shared (tx_step s t pc)) (st_tx (tx_step s t pc)) o
| exec_goto s t pc pc' s1 tr s2 t2 o :
    st_next (tx_step s t pc) = Goto pc' →
    env (st_shared (tx_step s t pc)) s1 →
    exec s1 (st_tx (tx_step s t pc)) pc' tr s2 t2 o →
    exec s t pc (ev_list (st_event (tx_step s t pc)) ++ tr) s2 t2 o.

(** A list of calls made one after the other; an exception ends it. *)
Inductive exec_ops : Shared → Tx → list Op → list Event → Shared → Tx → Outcome → Prop :=
| ops_nil s t :
    exec_ops s t [] [] s t RetVoid
| ops_last s t op tr s1 t1 o :
    exec s t (entry op) tr s1 t1 o →
    exec_ops s t [op] tr s1 t1 o
| ops_ret s t op op' ops tr s1 t1 o s1' tr2 s2 t2 o2 :
    exec s t (entry op) tr s1 t1 o →
    returned o = true →
    env s1 s1' →
    exec_ops s1' t1 (op' :: ops) tr2 s2 t2 o2 →
    exec_ops s t (op :: op' :: ops) (tr ++ tr2) s2 t2 o2
| ops_raise s t op op' ops tr s1 t1 o :
    exec s t (entry op) tr s1 t1 o →
    returned o = false →
    exec_ops s t (op :: op' :: ops) tr s1 t1 o.
End Exec.

(** No interference at all: the thread runs alone. *)
Definition alone : relation Shared := eq.

(** ** A system of threads *)

(** A thread runs a client (a driver such as [th_run]) that is either
    computing on its own locals, calling the engine, or finished. *)
Inductive Act (C : Type) :=
| Internal (c : C)
| Call (op : Op) (k : Outcome → C)
| Exit.
Arguments Internal {C} c.
Arguments Call {C} op k.
Arguments Exit {C}.

Record Thread (C : Type) := mkThread {
  th_client : C;
  th_tx : Tx;
  th_pc : option Pc
}.
Arguments mkThread {C} _ _ _.
Arguments th_client {C} _.
Arguments th_tx {C} _.
Arguments th_pc {C} _.

Record System (C : Type) := mkSystem {
  shared : Shared;
  threads : list (Thread C)
}.
Arguments mkSystem {C} _ _.
Arguments shared {C} _.
Arguments threads {C} _.

Section System.
Context {C : Type}.
Variable client : C → Act C.

(** One step of a thread; [None] when the thread has exited or the step
    has undefined behaviour. *)
Definition thread_step (s : Shared) (th : Thread C) : option (Shared * Thread C) :=
  match th_pc th with
  | None =>
      match client (th_client th) with
      | Internal c => Some (s, mkThread c (th_tx th) None)
      | Call op _ => Some (s, mkThread (th_client th) (th_tx th) (Some (entry op)))
      | Exit => None
      end
  | Some pc =>
      let r := tx_step s (th_tx th) pc in
      match st_next r with
      | Goto pc' => Some (st_shared r, mkThread (th_client th) (st_tx r) (Some pc'))
      | Finish Fault => None
      | Finish o =>
          match client (th_client th) with
          | Call _ k => Some (st_shared r, mkThread (k o) (st_tx r) None)
          | _ => None
          end
      end
  end.

Definition sys_step (i : nat) (g : System C) : option (System C) :=
  match threads g !! i with
  | Some th =>
      match thread_step (shared g) th with
      | Some (s, th') => Some (mkSystem s (<[i := th']> (threads g)))
      | None => None
      end
  | None => None
  end.

(** Running a schedule: the list of the threads that step, in order. *)
Fixpoint sys_run (sched : list nat) (g : System C) : option (System C) :=
  match sched with
  | [] => Some g
  | i :: rest =>
      match sys_step i g with
      | Some g' => sys_run rest g'
      | None => None
      end
  end.

Definition step (g g' : System C) : Prop := ∃ i, sys_step i g = Some g'.

(** The initial systems: the clock is 0 and every thread is about to
    start its client with its thread-local state freshly initialised. *)
Definition initial (g : System C) : Prop :=
  global_clock (shared g) = 0 ∧
  Forall (λ th, th_tx th = tx_init ∧ th_pc th = None) (threads g).

Definition reachable (g : System C) : Prop :=
  ∃ g0, initial g0 ∧ rtc step g0 g.
End System.

(** ** The benchmark thread [th_run] *)

Definition NUM_ACCTS : Z := 1000000.
Definition NUM_TXN : Z := 100000.
Definition TRFR_AMT : Z := 50.
Definition INIT_BALANCE : Z := 1000.

(** Control points of [th_run] between two calls of the engine. *)
Inductive DPc :=
| D_for_i      (* line 150 *)
| D_try        (* lines 152-155 *)
| D_for_j      (* line 158 *)
| D_while      (* lines 159-162 *)
| D_read1      (* line 164 *)
| D_test       (* lines 165-166 *)
| D_read2      (* line 167 *)
| D_write1     (* line 168 *)
| D_write2     (* line 169 *)
| D_commit     (* line 171 *)
| D_exit.      (* line 179 *)

(** The locals of [th_run]. *)
Record Driver := mkDriver {
  d_pc : DPc;
  tid : Z;
  d_i : Z;
  d_j : Z;
  r1 : Z;
  r2 : Z;
  a1 : Z;
  a2 : Z
}.

Definition at_pc (d : Driver) (pc : DPc) : Driver :=
  mkDriver pc (tid d) (d_i d) (d_j d) (r1 d) (r2 d) (a1 d) (a2 d).

Section Driver.
(** [rand_r_32] comes from the header [rand_r_32.h], which is not part
    of the sources: from the seed it gives the next seed and a number. *)
Variable rand_r_32 : Z → Z * Z.
Variable numThreads : Z.

Definition workload : Z := NUM_TXN / numThreads.

(** The [catch] clause: [aborted = true], so the [do] loop runs again. *)
Definition catch (d : Driver) : Driver := at_pc d D_try.

(** After a call: go on with the value returned, or to the [catch]
    clause when the call threw. *)
Definition resume (d : Driver) (o : Outcome) (next : Z → Driver) : Driver :=
  match o with
  | RetVoid => next 0
  | RetVal v => next v
  | Abort | Fault => catch d
  end.

(** One transaction after the other, each retried until it commits.  The
    counters [i] and [j] stay below their bounds, so [i++] and [j++] do
    not wrap; the two balances are computed in [int]. *)
Definition th_run (d : Driver) : Act Driver :=
  match d_pc d with
  | D_for_i =>
      Internal (at_pc d (if d_i d <? workload then D_try else D_exit))
  | D_try =>
      Call OpBegin (λ o, resume d o (λ _,
        mkDriver D_for_j (tid d) (d_i d) 0 0 0 (a1 d) (a2 d)))
  | D_for_j =>
      Internal (at_pc d (if d_j d <? 10 then D_while else D_commit))
  | D_while =>
      if r1 d =? r2 d
      then
        let '(seed1, x) := rand_r_32 (tid d) in
        let '(seed2, y) := rand_r_32 seed1 in
        Internal (mkDriver D_while seed2 (d_i d) (d_j d)
                    (to_uint x mod NUM_ACCTS) (to_uint y mod NUM_ACCTS)
                    (a1 d) (a2 d))
      else Internal (at_pc d D_read1)
  | D_read1 =>
      Call (OpRead (r1 d)) (λ o, resume d o (λ v,
        mkDriver D_test (tid d) (d_i d) (d_j d) (r1 d) (r2 d) v (a2 d)))
  | D_test =>
      Internal (at_pc d (if a1 d <? TRFR_AMT then D_commit else D_read2))
  | D_read2 =>
      Call (OpRead (r2 d)) (λ o, resume d o (λ v,
        mkDriver D_write1 (tid d) (d_i d) (d_j d) (r1 d) (r2 d) (a1 d) v))
  | D_write1 =>
      Call (OpWrite (r1 d) (to_int (a1 d - TRFR_AMT)))
        (λ o, resume d o (λ _, at_pc d D_write2))
  | D_write2 =>
      Call (OpWrite (r2 d) (to_int (a2 d + TRFR_AMT)))
        (λ o, resume d o (λ _,
           mkDriver D_for_j (tid d) (d_i d) (d_j d + 1) (r1 d) (r2 d) (a1 d) (a2 d)))
  | D_commit =>
      Call OpCommit (λ o, resume d o (λ _,
        mkDriver D_for_i (tid d) (d_i d + 1) (d_j d) (r1 d) (r2 d) (a1 d) (a2 d)))
  | D_exit => Exit
  end.

(** [th_run] as started by [main] or [pthread_create] with [id]. *)
Definition th_start (id : Z) : Thread Driver :=
  mkThread (mkDriver D_for_i (to_uint id) 0 0 0 0 0 0) tx_init None.
End Driver.

(** ** Derived notions used by the statements *)

(** Calls made one after the other by a thread running alone; the result
    is that of the last call made. *)
Fixpoint run_ops (fuel : nat) (s : Shared) (t : Tx) (ops : list Op) : Run :=
  match ops with
  | [] => Done s t RetVoid []
  | op :: rest =>
      match run fuel s t (entry op) with
      | Done s1 t1 o tr =>
          match rest with
          | [] => Done s1 t1 o tr
          | _ :: _ =>
              if returned o
              then match run_ops fuel s1 t1 rest with
                   | Done s2 t2 o2 tr2 => Done s2 t2 o2 (tr ++ tr2)
                   | Spinning s2 t2 pc tr2 => Spinning s2 t2 pc (tr ++ tr2)
                   end
              else Done s1 t1 o tr
          end
      | Spinning s1 t1 pc tr => Spinning s1 t1 pc tr
      end
  end.

(** The write set after a call, and after a list of calls made one
    after the other: [tx_begin] clears it (line 89), [tx_write] adds to
    it (line 97), and no other call assigns it. *)
Definition buffer (ws : gmap Z Z) (op : Op) : gmap Z Z :=
  match op with
  | OpBegin => ∅
  | OpWrite a v => emplace a v ws
  | OpRead _ | OpCommit | OpValidate => ws
  end.

Definition buffered (ops : list Op) (ws : gmap Z Z) : gmap Z Z :=
  foldl buffer ws ops.

(** The write-back loop of [tx_commit] as a whole. *)
Fixpoint write_back (pending : list (Z * Z)) (l : list Acct) : option (list Acct) :=
  match pending with
  | [] => Some l
  | (a, v) :: rest =>
      match store_value a v l with
      | Some l' => write_back rest l'
      | None => None
      end
  end.

(** Replaying the cell stores of a trace. *)
Definition apply_stores (tr : list Event) (l : list Acct) : option (list Acct) :=
  write_back (stores tr) l.

(** The exclusive window of a commit: after the successful
    compare-and-swap, up to the release store. *)
Definition in_window (pc : option Pc) : bool :=
  match pc with
  | Some (Commit_wb _) | Some Commit_release => true
  | _ => false
  end.

(** Where a control point stands with respect to the write-back. *)
Inductive Phase :=
| Outside                       (* not in [tx_commit] *)
| Acquiring                     (* in [tx_commit], before the window *)
| Window (pending : list (Z * Z)).

Definition phase (pc : Pc) : Phase :=
  match pc with
  | Commit_entry | Commit_cas
  | Val_clock K_commit | Val_scan K_commit _ _ | Val_recheck K_commit _ _ => Acquiring
  | Commit_wb pending => Window pending
  | Commit_release => Window []
  | _ => Outside
  end.

(** What is known of the versions a thread holds at a control point. *)
Definition rv_ok (t : Tx) (pc : option Pc) : Prop :=
  is_uint (rv t) ∧
  (pc ≠ Some Begin_spin → Z.even (rv t) = true) ∧
  match pc with
  | Some (Val_scan _ temp _) | Some (Val_recheck _ temp _) => Z.even temp = true
  | _ => True
  end.

Definition system_ok {C : Type} (g : System C) : Prop :=
  is_uint (global_clock (shared g)) ∧
  (∀ i th, threads g !! i = Some th → rv_ok (th_tx th) (th_pc th)) ∧
  (∀ i th, threads g !! i = Some th → in_window (th_pc th) = true →
           global_clock (shared g) = rv (th_tx th) + 1) ∧
  (∀ i j thi thj, threads g !! i = Some thi → threads g !! j = Some thj →
           in_window (th_pc thi) = true → in_window (th_pc thj) = true → i = j).

(** The control points of [tx_validate] at which no read-set entry is
    left to compare. *)
Definition nothing_to_scan (pc : Pc) : bool :=
  match pc with
  | Val_clock _ | Val_scan _ _ [] => true
  | _ => false
  end.

(** The control points of [tx_begin], [tx_write] and of the window of
    [tx_commit]. *)
Definition never_aborts (pc : Pc) : bool :=
  match pc with
  | Begin_clear | Begin_spin | Write_emplace _ _ | Commit_wb _ | Commit_release => true
  | _ => false
  end.

Definition next_pc (n : Next) : option Pc :=
  match n with
  | Goto pc => Some pc
  | Finish _ => None
  end.

(** How a step of a thread moves the clock, by the window it is in before
    and after the step. *)
Definition window_change (t : Tx) (pc pc' : option Pc) (c c' : Z) (t' : Tx) : Prop :=
  match in_window pc, in_window pc' with
  | false, false => c' = c
  | false, true => pc = Some Commit_cas ∧ c = rv t ∧ c' = rv t + 1 ∧ rv t' = rv t
  | true, true => c' = c ∧ rv t' = rv t
  | true, false => pc = Some Commit_release ∧ c' = to_uint (rv t + 2)
  end.

Definition store_event (p : Z * Z) : Event := StoreCell p.1 p.2.

(** [tx_validate] called on its own, with a [temp] known to be even. *)
Definition validating_even (pc : Pc) : Prop :=
  match pc with
  | Val_clock K_top => True
  | Val_scan K_top temp _ | Val_recheck K_top temp _ => Z.even temp = true
  | _ => False
  end.

Definition beginning (pc : Pc) : bool :=
  match pc with
  | Begin_clear | Begin_spin => true
  | _ => false
  end.

(** Thread [i] is inside [tx_validate] with nothing to scan, called by
    the client state [c]. *)
Definition validating_nothing {C : Type} (i : nat) (c : C) (g : System C) : Prop :=
  ∃ th pc, threads g !! i = Some th ∧ th_client th = c
    ∧ th_pc th = Some pc ∧ nothing_to_scan pc = true
    ∧ read_set (th_tx th) = [].

(** A client that writes 1 to account 0 in one transaction after the
    other: [tx_begin(); tx_write(0, 1); tx_commit();] for ever. *)
Inductive WPc := W_begin | W_write | W_commit.

Definition writer (w : WPc) : Act WPc :=
  match w with
  | W_begin => Call OpBegin (λ _, W_write)
  | W_write => Call (OpWrite 0 1) (λ _, W_commit)
  | W_commit => Call OpCommit (λ _, W_begin)
  end.

(** The writer alone, between two transactions. *)
Definition writer_at (x c : Z) (t : Tx) : System WPc :=
  mkSystem (mkShared [mkAcct 0 x] c) [mkThread W_begin t None].

(** One transfer of [th_run] as a list of calls: the accounts [r1] and
    [r2], and the balances [a1] and [a2] read from them. *)
Definition transfer (r1 r2 a1 a2 : Z) : list Op :=
  [OpBegin; OpRead r1; OpRead r2;
   OpWrite r1 (to_int (a1 - TRFR_AMT)); OpWrite r2 (to_int (a2 + TRFR_AMT));
   OpCommit].

(** ** Notions used by the further properties *)

(** Loads of the clock, and loads in general. *)
Definition is_clock_load (e : Event) : bool :=
  match e with
  | LoadClock _ => true
  | _ => false
  end.

Definition is_load (e : Event) : bool :=
  match e with
  | LoadClock _ | LoadCell _ _ => true
  | _ => false
  end.

(** The control points of [tx_validate] called on its own. *)
Definition validating (pc : Pc) : bool :=
  match pc with
  | Val_clock K_top | Val_scan K_top _ _ | Val_recheck K_top _ _ => true
  | _ => false
  end.

(** The entries [tx_validate] has still to compare at a control point. *)
Definition scan_rest (pc : Pc) : list Acct :=
  match pc with
  | Val_scan _ _ it | Val_recheck _ _ it => it
  | _ => []
  end.

(** The control points of [tx_read(a)] once the write set has been
    searched in vain. *)
Definition reading (a : Z) (pc : Pc) : bool :=
  match pc with
  | Read_load b | Read_check b _ | Read_reload b
  | Val_clock (K_read b) | Val_scan (K_read b) _ _ | Val_recheck (K_read b) _ _ =>
      bool_decide (b = a)
  | _ => false
  end.

(** Some thread is inside its commit window. *)
Definition window_taken {C : Type} (g : System C) : Prop :=
  ∃ i th, threads g !! i = Some th ∧ in_window (th_pc th) = true.

(** Addresses inside a vector of [n] accounts. *)
Definition in_range (n : nat) (a : Z) : Prop := 0 ≤ a < Z.of_nat n.

Definition op_in_range (n : nat) (op : Op) : Prop :=
  match op with
  | OpRead a | OpWrite a _ => in_range n a
  | _ => True
  end.

Definition caller_in_range (n : nat) (k : Caller) : Prop :=
  match k with
  | K_read a => in_range n a
  | _ => True
  end.

Definition pc_in_range (n : nat) (pc : Pc) : Prop :=
  match pc with
  | Write_emplace a _ | Read_lookup a | Read_load a | Read_check a _ | Read_reload a =>
      in_range n a
  | Val_clock k => caller_in_range n k
  | Val_scan k _ it | Val_recheck k _ it =>
      caller_in_range n k ∧ Forall (λ e, in_range n (addr e)) it
  | Commit_wb pending => Forall (λ p, in_range n p.1) pending
  | _ => True
  end.

Definition tx_in_range (n : nat) (t : Tx) : Prop :=
  Forall (λ e, in_range n (addr e)) (read_set t)
  ∧ map_Forall (λ a _, in_range n a) (write_set t).

(** A client that, as long as [I] holds of its state, calls the engine on
    addresses inside the vector only, and keeps [I]. *)
Definition client_in_range {C : Type} (client : C → Act C) (I : C → Prop) (n : nat) : Prop :=
  ∀ c, I c →
    match client c with
    | Internal c' => I c'
    | Call op k => op_in_range n op ∧ ∀ o, I (k o)
    | Exit => True
    end.

Definition thread_in_range {C : Type} (client : C → Act C) (I : C → Prop) (n : nat)
    (th : Thread C) : Prop :=
  I (th_client th) ∧ tx_in_range n (th_tx th)
  ∧ match th_pc th with
    | Some pc => pc_in_range n pc ∧ ∃ op k, client (th_client th) = Call op k
    | None => True
    end.

(** The accounts [th_run] has picked are inside the vector of [main]. *)
Definition picks_in_range (d : Driver) : Prop :=
  0 ≤ r1 d < NUM_ACCTS ∧ 0 ≤ r2 d < NUM_ACCTS.

(** ** [main]

    [main] checks its arguments, fills the vector of accounts, adds up the
    balances, creates [numThreads] threads that run [th_run] and then runs
    [th_run(0)] itself.  Its loops are run with fuel; printing and timing
    are left out. *)

(** A value of type [long], which has [bits] bits. *)
Definition to_long (bits z : Z) : Z :=
  (z + 2 ^ (bits - 1)) mod 2 ^ bits - 2 ^ (bits - 1).

(** How a loop run with fuel ends: it is left normally, it accesses an
    array outside its bounds, or the fuel is used up. *)
Inductive Loop (A : Type) :=
| Ended (a : A)
| Faulted
| NoFuel.
Arguments Ended {A} a.
Arguments Faulted {A}.
Arguments NoFuel {A}.

(** Lines 197-200: [for (int i = 0; i < NUM_ACCTS; i++)] pushes
    [{i, INIT_BALANCE}] at the back of [accts]. *)
Fixpoint init_accts (fuel : nat) (i : Z) (l : list Acct) : Loop (list Acct) :=
  match fuel with
  | O => NoFuel
  | S n =>
      if i <? NUM_ACCTS
      then init_accts n (to_int (i + 1)) (l ++ [mkAcct i INIT_BALANCE])
      else Ended l
  end.

(** Lines 202-204: [totalMoneyBefore += accts[i].value] for [i] from 0 to
    [NUM_ACCTS - 1], the total being a [long]. *)
Fixpoint sum_accts (bits : Z) (fuel : nat) (l : list Acct) (i total : Z) : Loop Z :=
  match fuel with
  | O => NoFuel
  | S n =>
      if i <? NUM_ACCTS
      then match cell l i with
           | Some c => sum_accts bits n l (to_int (i + 1)) (to_long bits (total + value c))
           | None => Faulted
           end
      else Ended total
  end.

(** Lines 210-215: a thread running [th_run] with argument [ids] is
    created and recorded in [client_th[ids-1]], with [ids] counting from
    1 and [client_th] having 300 elements.  The test
    [i < numThreads] compares an [int] with an [unsigned int], as
    unsigned. *)
Fixpoint create_threads (bits : Z) (fuel : nat) (numThreads i ids : Z)
    (ths : list (Thread Driver)) : Loop (list (Thread Driver)) :=
  match fuel with
  | O => NoFuel
  | S n =>
      if to_uint i <? numThreads
      then if (0 <=? ids - 1) && (ids - 1 <? 300)
           then create_threads bits n numThreads (to_int (i + 1)) (to_long bits (ids + 1))
                  (ths ++ [th_start ids])
           else Faulted
      else Ended ths
  end.

(** Where [main] stands when the transactions begin: it has left through
    [exit(0)] (lines 186 and 191), or it has computed [totalMoneyBefore]
    and the threads are about to run. *)
Inductive Main :=
| Exits
| Started (totalMoneyBefore : Z) (g : System Driver).

(** [main] up to line 219, given [argc] and the [int] that [atoi(argv[1])]
    returns, which line 188 converts to the [unsigned int numThreads].
    The clock starts at 0 (line 57).  The thread of [main], which calls
    [th_run(0)], is thread 0 of the system; the threads created before
    are taken at their start, whenever the schedule lets them run. *)
Definition main (bits : Z) (fuel : nat) (argc arg : Z) : Loop Main :=
  if negb (argc =? 2) then Ended Exits
  else
    let numThreads := to_uint arg in
    if negb (numThreads =? 1) && negb (numThreads =? 2) && negb (numThreads =? 4)
    then Ended Exits
    else
      match init_accts fuel 0 [] with
      | Ended l =>
          match sum_accts bits fuel l 0 0 with
          | Ended totalMoneyBefore =>
              match create_threads bits fuel numThreads 0 1 [] with
              | Ended ths =>
                  Ended (Started totalMoneyBefore
                           (mkSystem (mkShared l 0) (th_start 0 :: ths)))
              | Faulted => Faulted
              | NoFuel => NoFuel
              end
          | Faulted => Faulted
          | NoFuel => NoFuel
          end
      | Faulted => Faulted
      | NoFuel => NoFuel
      end.

(** The vector and the system that the loops of [main] are shown to
    build, in closed form. *)
Definition main_accts : list Acct :=
  (λ i, mkAcct i INIT_BALANCE) <$> seqZ 0 NUM_ACCTS.

Definition main_start (numThreads : Z) : System Driver :=
  mkSystem (mkShared main_accts 0) (th_start <$> seqZ 0 (numThreads + 1)).

(** ** The barrier

    [barrier(which)]: an atomic increment of [barriers[which]] followed by
    a busy wait until the counter reaches [numThreads].  The array
    [static volatile int barriers[16]] starts as zeros. *)

(** Control points of one call: before the increment (line 135), in the
    wait loop (line 136), returned. *)
Inductive BPc :=
| Bar_add
| Bar_wait
| Bar_done.

(** [barriers[which]]: outside the sixteen slots the access is undefined. *)
Definition slot (bs : list Z) (which : Z) : option Z :=
  if 0 <=? which then bs !! Z.to_nat which else None.

Section Barrier.
Variable numThreads : Z.
Variable which : Z.

(** One step of a thread inside [barrier(which)]; [None] when the call
    has returned or the step is undefined.  The comparison of the [int]
    counter with the [unsigned int numThreads] is unsigned. *)
Definition barrier_step (bs : list Z) (pc : BPc) : option (list Z * BPc) :=
  match pc with
  | Bar_add =>
      match slot bs which with
      | Some b => Some (<[Z.to_nat which := to_int (b + 1)]> bs, Bar_wait)
      | None => None
      end
  | Bar_wait =>
      match slot bs which with
      | Some b => Some (bs, if to_uint b <? numThreads then Bar_wait else Bar_done)
      | None => None
      end
  | Bar_done => None
  end.

(** The threads calling the barrier, with the array they share. *)
Record Barrier := mkBarrier { barriers : list Z; callers : list BPc }.

Definition bar_step (i : nat) (b : Barrier) : option Barrier :=
  match callers b !! i with
  | Some pc =>
      match barrier_step (barriers b) pc with
      | Some (bs, pc') => Some (mkBarrier bs (<[i := pc']> (callers b)))
      | None => None
      end
  | None => None
  end.

Fixpoint bar_run (sched : list nat) (b : Barrier) : option Barrier :=
  match sched with
  | [] => Some b
  | i :: rest =>
      match bar_step i b with
      | Some b' => bar_run rest b'
      | None => None
      end
  end.

Definition bar_next (b b' : Barrier) : Prop := ∃ i, bar_step i b = Some b'.
End Barrier.

(** [n] threads about to call the barrier for the first time. *)
Definition bar_init (n : nat) : Barrier :=
  mkBarrier (replicate 16 0) (replicate n Bar_add).

(** The number of callers that have done their increment. *)
Definition arrived (l : list BPc) : Z :=
  foldr (λ pc k, (if pc is Bar_add then 0 else 1) + k) 0 l.

(** The counter is the number of arrived callers, and a caller that has
    returned saw at least [numThreads] of them. *)
Definition bar_ok (numThreads which : Z) (b : Barrier) : Prop :=
  length (barriers b) = 16%nat
  ∧ slot (barriers b) which = Some (arrived (callers b))
  ∧ (∀ i, callers b !! i = Some Bar_done → numThreads ≤ arrived (callers b)).

(** * Properties *)

(** ** Machine integers *)

Ltac wrap_arith :=
  unfold is_uint, to_uint, to_int in *;
  change (2 ^ 32) with 4294967296 in *;
  change (2 ^ 31) with 2147483648 in *;
  Z.to_euclidean_division_equations; lia.

Lemma to_uint_id z : is_uint z → to_uint z = z.
Proof. wrap_arith. Qed.

Lemma to_uint_range z : is_uint (to_uint z).
Proof. wrap_arith. Qed.

Lemma to_uint_to_int z : to_uint (to_int z) = to_uint z.
Proof. wrap_arith. Qed.

Lemma land1_mod z : Z.land z 1 = z mod 2.
Proof. change 1 with (Z.ones 1). rewrite Z.land_ones by lia. reflexivity. Qed.

Lemma land1_even z : (Z.land z 1 =? 0) = Z.even z.
Proof.
  rewrite land1_mod. destruct (Z.even z) eqn:E.
  - apply Z.even_spec in E as [k ->]. apply Z.eqb_eq. wrap_arith.
  - apply Z.eqb_neq. intros H.
    assert (Z.even z = true); [| congruence].
    apply Z.even_spec. exists (z / 2). wrap_arith.
Qed.

Lemma even_to_int z : Z.even (to_int z) = Z.even z.
Proof. rewrite <- !land1_even, !land1_mod. f_equal. wrap_arith. Qed.

Lemma even_to_uint z : Z.even (to_uint z) = Z.even z.
Proof. rewrite <- !land1_even, !land1_mod. f_equal. wrap_arith. Qed.

Lemma even_succ_uint z :
  is_uint z → Z.even z = true → to_uint (z + 1) = z + 1 ∧ Z.odd (z + 1) = true.
Proof.
  intros Hr He. split.
  - apply Z.even_spec in He as [k ->]. wrap_arith.
  - replace (z + 1) with (Z.succ z) by lia. rewrite Z.odd_succ. done.
Qed.

(** ** Proof tools *)

Lemma stores_app tr1 tr2 : stores (tr1 ++ tr2) = stores tr1 ++ stores tr2.
Proof. apply omap_app. Qed.

(** Case analysis on the step taken at a known control point. *)
Ltac step_inv H :=
  simpl in *; unfold validate_return, tx_abort in *;
  repeat match type of H with
         | context [match ?x with _ => _ end] => destruct x eqn:?; simpl in *
         end;
  simplify_eq; simpl in *.

Ltac by_caller :=
  try match goal with k : Caller |- _ => destruct k; simpl in * end.

(** ** Running alone and running against the environment [alone] agree *)

Lemma run_exec fuel : ∀ s t pc s' t' o tr,
  run fuel s t pc = Done s' t' o tr → exec alone s t pc tr s' t' o.
Proof.
  induction fuel as [|n IH]; intros s t pc s' t' o tr; simpl; [done|].
  destruct (st_next (tx_step s t pc)) as [pc'|o'] eqn:Hn.
  - destruct (run n _ _ pc') as [s2 t2 o2 tr2|] eqn:Hr; simpl; [|done].
    intros [= <- <- <- <-]. eapply exec_goto; [done| reflexivity |]. by apply IH.
  - intros [= <- <- <- <-]. by apply exec_finish.
Qed.

Lemma exec_run s t pc tr s' t' o :
  exec alone s t pc tr s' t' o → ∃ fuel, run fuel s t pc = Done s' t' o tr.
Proof.
  induction 1 as [s t pc o Hn | s t pc pc' s1 tr s2 t2 o Hn Henv Hx [n IH]].
  - exists 1%nat. simpl. by rewrite Hn.
  - exists (S n). simpl. rewrite Hn. unfold alone in Henv. subst s1. by rewrite IH.
Qed.

(** ** Which steps store into the account vector *)

Lemma exec_phase env s t pc tr s' t' o :
  exec env s t pc tr s' t' o →
  match phase pc with
  | Outside => stores tr = []
  | Acquiring =>
      write_set t' = write_set t ∧
      (o = Abort → stores tr = []) ∧
      (returned o = true → stores tr = map_to_list (write_set t))
  | Window pending =>
      write_set t' = write_set t ∧ o ≠ Abort ∧
      (returned o = true → stores tr = pending)
  end.
Proof.
  induction 1 as [s t pc o Hn | s t pc pc' s1 tr s2 t2 o Hn Henv Hx IH].
  - destruct pc; step_inv Hn; by_caller; try done.
    split; [done|]. split; [done|]. intros _. symmetry.
    match goal with H : write_set _ = ∅ |- _ => rewrite H end.
    apply map_to_list_empty.
  - rewrite stores_app.
    destruct pc; step_inv Hn; by_caller; try done.
    all: destruct IH as (? & ? & ?); split_and!; try done; intros; f_equal; auto.
Qed.

Lemma write_back_app p1 : ∀ p2 l,
  write_back (p1 ++ p2) l =
  match write_back p1 l with Some l' => write_back p2 l' | None => None end.
Proof.
  induction p1 as [|[a v] p1 IH]; intros p2 l; simpl; [done|].
  destruct (store_value a v l); [apply IH | done].
Qed.

Lemma cell_store_value a v l l' :
  store_value a v l = Some l' →
  (∃ c, cell l a = Some c ∧ cell l' a = Some (mkAcct (addr c) v))
  ∧ (∀ b, b ≠ a → cell l' b = cell l b).
Proof.
  unfold store_value. destruct (cell l a) as [c|] eqn:Hc; [|done].
  intros [= <-]. unfold cell in *.
  destruct (0 <=? a) eqn:Ha; [|done]. apply Z.leb_le in Ha. split.
  - exists c. split; [done|]. apply list_lookup_insert_eq. by eapply lookup_lt_Some.
  - intros b Hb. destruct (0 <=? b) eqn:Hb0; [|done]. apply Z.leb_le in Hb0.
    apply list_lookup_insert_ne. lia.
Qed.

Lemma write_back_cells pending : ∀ l l',
  NoDup pending.*1 →
  write_back pending l = Some l' →
  (∀ a v, (a, v) ∈ pending →
     ∃ c, cell l a = Some c ∧ cell l' a = Some (mkAcct (addr c) v))
  ∧ (∀ b, b ∉ pending.*1 → cell l' b = cell l b).
Proof.
  induction pending as [|[a v] pending IH]; intros l l' Hnd Hwb; simpl in *.
  - simplify_eq. split; [|done]. intros a v Hin. by apply elem_of_nil in Hin.
  - destruct (store_value a v l) as [l1|] eqn:Hst; [|done].
    apply NoDup_cons in Hnd as [Hna Hnd].
    destruct (cell_store_value _ _ _ _ Hst) as ((c & Hc & Hc1) & Hother).
    destruct (IH _ _ Hnd Hwb) as [Hin Hout]. split.
    + intros a' v' [[= -> ->]|Hin']%elem_of_cons.
      * exists c. split; [done|]. by rewrite (Hout a Hna).
      * destruct (Hin _ _ Hin') as (c' & Hc' & Hc'').
        assert (a' ≠ a).
        { intros ->. apply Hna. apply list_elem_of_fmap. by exists (a, v'). }
        exists c'. split; [|done]. by rewrite <- Hother.
    + intros b Hb. apply not_elem_of_cons in Hb as [Hba Hb].
      rewrite (Hout b Hb). by apply Hother.
Qed.

Lemma step_accts s t pc :
  apply_stores (ev_list (st_event (tx_step s t pc))) (accts s)
  = Some (accts (st_shared (tx_step s t pc))).
Proof.
  unfold apply_stores.
  destruct pc; simpl; unfold validate_return; repeat case_match; simpl; by_caller; try done.
  match goal with H : store_value _ _ _ = _ |- _ => by rewrite H end.
Qed.

Lemma exec_accts env s t pc tr s' t' o :
  (∀ x y, env x y → accts y = accts x) →
  exec env s t pc tr s' t' o →
  apply_stores tr (accts s) = Some (accts s').
Proof.
  intros Henv. induction 1 as [s t pc o Hn | s t pc pc' s1 tr s2 t2 o Hn He Hx IH].
  - apply step_accts.
  - unfold apply_stores in *. rewrite stores_app, write_back_app.
    pose proof (step_accts s t pc) as Hs. unfold apply_stores in Hs. rewrite Hs.
    apply Henv in He. by rewrite <- He.
Qed.

(** ** A validation over an empty read set *)

Lemma nothing_to_scan_step s t pc :
  read_set t = [] → nothing_to_scan pc = true →
  ∃ pc', tx_step s t pc = mkStep s t (st_event (tx_step s t pc)) (Goto pc')
         ∧ nothing_to_scan pc' = true.
Proof.
  intros Hrs Hpc. destruct pc as [| | | | | | |k|k temp [|e it]| | | | |]; try done; simpl.
  - rewrite Hrs. destruct (negb _); eauto.
  - eauto.
Qed.

Lemma validate_empty_never_finishes env s t pc tr s' t' o :
  exec env s t pc tr s' t' o →
  read_set t = [] → nothing_to_scan pc = true → False.
Proof.
  induction 1 as [s t pc o Hn | s t pc pc' s1 tr s2 t2 o Hn Henv Hx IH];
    intros Hrs Hpc;
    destruct (nothing_to_scan_step s t pc Hrs Hpc) as (pc2 & Hs & Hpc2);
    rewrite Hs in *; simpl in *; simplify_eq.
  by apply IH.
Qed.

Lemma validate_empty_spins fuel : ∀ s t pc,
  read_set t = [] → nothing_to_scan pc = true →
  ∃ pc' tr, run fuel s t pc = Spinning s t pc' tr.
Proof.
  induction fuel as [|n IH]; intros s t pc Hrs Hpc; simpl; [by eauto|].
  destruct (nothing_to_scan_step s t pc Hrs Hpc) as (pc2 & Hs & Hpc2).
  rewrite Hs. simpl.
  destruct (IH s t pc2 Hrs Hpc2) as (pc3 & tr & ->). simpl. eauto.
Qed.

(** [tx_read] of an address that is not in the write set, with an empty
    read set and a stale [rv]. *)
Lemma read_stale_empty env s t a tr s' t' o :
  read_set t = [] → write_set t !! a = None →
  global_clock s ≠ rv t →
  (∀ x y, global_clock x ≠ rv t → env x y → global_clock y ≠ rv t) →
  exec env s t (Read_lookup a) tr s' t' o → o = Fault.
Proof.
  intros Hrs Hws Hc Henv Hx.
  inversion Hx as [? ? ? ? Hn | ? ? ? pc1 s1 tr1 ? ? ? Hn He Hx1]; subst; step_inv Hn.
  apply Henv in He; [|done].
  inversion Hx1 as [? ? ? ? Hn1 | ? ? ? pc2 s2 tr2 ? ? ? Hn1 He1 Hx2]; subst; step_inv Hn1; [done|].
  apply Henv in He1; [|done].
  inversion Hx2 as [? ? ? ? Hn2 | ? ? ? pc3 s3 tr3 ? ? ? Hn2 He2 Hx3]; subst; step_inv Hn2.
  - apply negb_false_iff, Z.eqb_eq in Heqb. congruence.
  - exfalso. by eapply validate_empty_never_finishes.
Qed.

Lemma read_stale_empty_spins fuel s t a c :
  read_set t = [] → write_set t !! a = None →
  global_clock s ≠ rv t → cell (accts s) a = Some c →
  ∃ pc tr, run fuel s t (Read_lookup a) = Spinning s t pc tr.
Proof.
  intros Hrs Hws Hc Hcell.
  destruct fuel as [|[|[|n]]]; simpl; rewrite ?Hws; simpl; rewrite ?Hcell; simpl; eauto.
  assert (negb (rv t =? global_clock s) = true) as ->.
  { apply negb_true_iff, Z.eqb_neq. congruence. }
  simpl.
  destruct (validate_empty_spins n s t (Val_clock (K_read a)) Hrs eq_refl) as (pc & tr & ->).
  simpl. eauto.
Qed.

(** ** Sequences of calls *)

Lemma run_ops_exec_ops fuel ops : ∀ s t s' t' o tr,
  run_ops fuel s t ops = Done s' t' o tr → exec_ops alone s t ops tr s' t' o.
Proof.
  induction ops as [|op ops IH]; intros s t s' t' o tr; simpl.
  - intros [= <- <- <- <-]. constructor.
  - destruct (run fuel s t (entry op)) as [s1 t1 o1 tr1|] eqn:Hr; [|done].
    apply run_exec in Hr. destruct ops as [|op' ops].
    + intros [= <- <- <- <-]. by constructor.
    + destruct (returned o1) eqn:Hret.
      * destruct (run_ops fuel s1 t1 (op' :: ops)) as [s2 t2 o2 tr2|] eqn:Hr2; [|done].
        intros [= <- <- <- <-]. eapply ops_ret; eauto. reflexivity.
      * intros [= <- <- <- <-]. by eapply ops_raise.
Qed.

Lemma exec_ops_accts env s t ops tr s' t' o :
  (∀ x y, env x y → accts y = accts x) →
  exec_ops env s t ops tr s' t' o →
  apply_stores tr (accts s) = Some (accts s').
Proof.
  intros Henv. induction 1 as [| |? ? ? ? ? ? ? ? ? ? ? ? ? ? Hx Hret He Hops IH|]; eauto using exec_accts.
  unfold apply_stores in *. rewrite stores_app, write_back_app.
  pose proof (exec_accts _ _ _ _ _ _ _ _ Henv Hx) as Hs. unfold apply_stores in Hs.
  rewrite Hs. apply Henv in He. by rewrite <- He.
Qed.

Lemma exec_ops_stores env ops : ∀ s t tr s' t' o,
  Forall (λ op, op ≠ OpCommit) ops →
  exec_ops env s t (ops ++ [OpCommit]) tr s' t' o →
  (o = Abort → stores tr = []) ∧
  (returned o = true → stores tr = map_to_list (write_set t')).
Proof.
  induction ops as [|op ops IH]; intros s t tr s' t' o Hops Hx; simpl in Hx.
  - inversion Hx as [|? ? ? ? ? ? ? He| |]; subst.
    apply exec_phase in He. simpl in He. destruct He as (-> & ? & ?). done.
  - apply Forall_cons in Hops as [Hop Hops].
    assert (Hout : phase (entry op) = Outside) by (by destruct op).
    destruct (ops ++ [OpCommit]) as [|op' rest] eqn:Hl; [by destruct ops|].
    inversion Hx as [| |? ? ? ? ? ? ? ? ? ? ? ? ? ? He Hret Henv Hrest|? ? ? ? ? ? ? ? ? He Hret]; subst.
    + apply exec_phase in He. rewrite Hout in He. rewrite stores_app, He. simpl.
      by apply IH in Hrest.
    + apply exec_phase in He. rewrite Hout in He. split; [done|]. congruence.
Qed.

(** ** The write set *)

Lemma tx_write_fresh s t a v :
  write_set t !! a = None →
  write_set (st_tx (tx_step s t (Write_emplace a v))) !! a = Some v.
Proof. intros H. simpl. unfold emplace. rewrite H. apply lookup_insert_eq. Qed.

Lemma tx_write_present s t a v w :
  write_set t !! a = Some w →
  write_set (st_tx (tx_step s t (Write_emplace a v))) = write_set t.
Proof. intros H. simpl. unfold emplace. by rewrite H. Qed.

Lemma tx_read_own_write s t a v :
  write_set t !! a = Some v →
  tx_step s t (Read_lookup a) = mkStep s t None (Finish (RetVal v)).
Proof. intros H. simpl. by rewrite H. Qed.

(** C1 (the code departs from the claim): after [tx_write(7, 1)] and then
    [tx_write(7, 2)] in a fresh transaction, the write set still maps 7 to
    1, the value of the first write, and [tx_read(7)] returns 1 and not
    the last value written; the read touches no shared memory and adds no
    read-set entry. *)
Theorem tx_write_keeps_first_value s :
  ∃ t, run_ops 1 s tx_init [OpWrite 7 1; OpWrite 7 2; OpRead 7]
       = Done s t (RetVal 1) []
     ∧ write_set t !! 7 = Some 1
     ∧ read_set t = [].
Proof. eexists. split; [vm_compute; reflexivity | split; reflexivity]. Qed.

(** ** Validation *)

(** Whatever follows the first entry of the read set, when that entry
    matches its cell and the clock is even and does not move,
    [tx_validate] returns after three steps. *)
Lemma tx_validate_first_entry s t e rest c :
  read_set t = e :: rest →
  is_uint (global_clock s) → Z.even (global_clock s) = true →
  cell (accts s) (addr e) = Some c → value e = value c →
  run 3 s t (Val_clock K_top)
  = Done s t (RetVal (to_int (global_clock s)))
      [LoadClock (global_clock s); LoadCell (addr e) (value c);
       LoadClock (global_clock s)].
Proof.
  intros Hrs Hu Hev Hc Hv. simpl.
  rewrite land1_even, even_to_int, Hev. simpl.
  rewrite Hrs. simpl. rewrite Hc. simpl.
  rewrite Hv, Z.eqb_refl. simpl.
  rewrite to_uint_to_int, (to_uint_id _ Hu), Z.eqb_refl. done.
Qed.

(** C2 (the code departs from the claim): with a read set of two entries
    whose second entry no longer matches its cell, [tx_validate] returns
    the clock value after comparing the first entry only: the trace has
    one cell load, and the result is a return, not an abort. *)
Theorem tx_validate_returns_after_first_entry :
  let s := mkShared [mkAcct 0 1000; mkAcct 1 7] 0 in
  let t := mkTx [mkAcct 0 1000; mkAcct 1 1000] ∅ 0 in
  run 3 s t (Val_clock K_top)
  = Done s t (RetVal 0) [LoadClock 0; LoadCell 0 1000; LoadClock 0]
  ∧ ∃ e c, read_set t !! 1%nat = Some e
         ∧ cell (accts s) (addr e) = Some c ∧ value e ≠ value c.
Proof. split; [reflexivity |]. eexists _, _. split; [done|]. split; done. Qed.

(** C9, as amended: with an empty read set [tx_validate] never returns
    and never aborts, whatever the clock and [rv] are and whatever the
    other threads do: no execution of it ends, and run alone it is still
    running after any number of steps.  Consequently [tx_read] of an
    address that is not in the write set, called with an empty read set
    while [rv] differs from the clock, never returns and never aborts
    either: run alone on a valid address it is still running after any
    number of steps. *)
Theorem empty_read_set_spins env s t (Hrs : read_set t = []) :
  (∀ k tr s' t' o, ¬ exec env s t (Val_clock k) tr s' t' o)
  ∧ (∀ k fuel, ∃ pc tr, run fuel s t (Val_clock k) = Spinning s t pc tr)
  ∧ (∀ a, write_set t !! a = None →
       global_clock s ≠ rv t →
       (∀ x y, global_clock x ≠ rv t → env x y → global_clock y ≠ rv t) →
       ∀ tr s' t' o, exec env s t (Read_lookup a) tr s' t' o →
         returned o = false ∧ o ≠ Abort)
  ∧ (∀ a, write_set t !! a = None →
       global_clock s ≠ rv t →
       is_Some (cell (accts s) a) →
       ∀ fuel, ∃ pc tr, run fuel s t (Read_lookup a) = Spinning s t pc tr).
Proof.
  split_and!.
  - intros k tr s' t' o Hx. by eapply validate_empty_never_finishes.
  - intros k fuel. by apply validate_empty_spins.
  - intros a Hws Hrv Henv tr s' t' o Hx.
    by rewrite (read_stale_empty _ _ _ _ _ _ _ _ Hrs Hws Hrv Henv Hx).
  - intros a Hws Hrv [c Hc] fuel. by eapply read_stale_empty_spins.
Qed.

Lemma empty_read_set_spins_witness :
  (∃ pc tr,
     run 100 (mkShared [mkAcct 0 1000] 2) (mkTx [] {[1 := 5]} 2) (Val_clock K_top)
     = Spinning (mkShared [mkAcct 0 1000] 2) (mkTx [] {[1 := 5]} 2) pc tr)
  ∧ (∃ pc tr,
       run 100 (mkShared [mkAcct 0 1000] 2) tx_init (Read_lookup 0)
       = Spinning (mkShared [mkAcct 0 1000] 2) tx_init pc tr).
Proof.
  split.
  - refine (proj1 (proj2
      (empty_read_set_spins alone (mkShared [mkAcct 0 1000] 2) (mkTx [] {[1 := 5]} 2) _))
      K_top 100%nat).
    reflexivity.
  - refine (proj2 (proj2 (proj2
      (empty_read_set_spins alone (mkShared [mkAcct 0 1000] 2) tx_init _))) 0 _ _ _ 100%nat).
    + reflexivity.
    + reflexivity.
    + simpl. lia.
    + simpl. eexists. reflexivity.
Defined.

(** C9, as stated, fails: with an empty read set and [rv] different from
    the clock, [tx_read] of an address found in the write set returns the
    buffered value at once. *)
Lemma tx_read_stale_returns_own_write :
  let s := mkShared [mkAcct 0 1000] 2 in
  let t := mkTx [] {[0 := 7]} 0 in
  read_set t = [] ∧ rv t ≠ global_clock s
  ∧ run 1 s t (Read_lookup 0) = Done s t (RetVal 7) [].
Proof. split; [done|]. split; [done|]. reflexivity. Qed.

(** ** Commit and abort *)

(** The write set a call leaves behind, whatever the other threads do
    and however the call ends. *)
Lemma exec_write_set env s t pc tr s' t' o :
  exec env s t pc tr s' t' o →
  write_set t'
  = match pc with
    | Begin_clear => ∅
    | Write_emplace a v => emplace a v (write_set t)
    | _ => write_set t
    end.
Proof.
  induction 1 as [s t pc o Hn | s t pc pc' s1 tr s2 t2 o Hn Henv Hx IH].
  - destruct pc; step_inv Hn; by_caller; done.
  - destruct pc; step_inv Hn; by_caller; done.
Qed.

Lemma exec_ops_buffered env s t ops tr s' t' o :
  exec_ops env s t ops tr s' t' o → returned o = true →
  write_set t' = buffered ops (write_set t).
Proof.
  assert (Hop : ∀ s t op tr s' t' o,
            exec env s t (entry op) tr s' t' o → write_set t' = buffer (write_set t) op).
  { intros s0 t0 op tr0 s0' t0' o0 Hx. apply exec_write_set in Hx. by destruct op. }
  induction 1 as [|? ? ? ? ? ? ? Hx|? ? ? ? ? ? ? ? ? ? ? ? ? ? Hx Hret He Hops IH
                  |? ? ? ? ? ? ? ? ? Hx Hret]; intros Ho.
  - done.
  - by apply Hop in Hx.
  - rewrite (IH Ho). apply Hop in Hx. unfold buffered. simpl. by rewrite Hx.
  - congruence.
Qed.

(** C6: a transaction is a list of calls other than [tx_commit] followed
    by [tx_commit]; its write set is the one these calls have built when
    [tx_commit] is called.  Whatever the other threads do in between: if
    the transaction ends by the abort signal, raised by any of its calls,
    it has stored nothing into the account vector; if [tx_commit]
    returns, the transaction has stored every pair of its write set, each
    once, and nothing else.  When nobody else writes the vector: after an
    abort the vector is exactly as before the first call of the
    transaction, and after a commit every cell of the write set holds the
    value buffered for it and every other cell is as before. *)
Theorem commit_all_or_nothing env s t ops tr s' t' o :
  Forall (λ op, op ≠ OpCommit) ops →
  exec_ops env s t (ops ++ [OpCommit]) tr s' t' o →
  (∀ tr1 s1 t1 o1,
     exec_ops env s t ops tr1 s1 t1 o1 → returned o1 = true →
     write_set t1 = buffered ops (write_set t))
  ∧ (o = Abort → stores tr = [])
  ∧ (returned o = true →
       NoDup (stores tr).*1
       ∧ ∀ a v, (a, v) ∈ stores tr ↔ buffered ops (write_set t) !! a = Some v)
  ∧ ((∀ x y, env x y → accts y = accts x) →
       (o = Abort → accts s' = accts s)
       ∧ (returned o = true →
            (∀ a v, buffered ops (write_set t) !! a = Some v →
               ∃ c, cell (accts s) a = Some c
                    ∧ cell (accts s') a = Some (mkAcct (addr c) v))
            ∧ (∀ a, buffered ops (write_set t) !! a = None →
                 cell (accts s') a = cell (accts s) a))).
Proof.
  intros Hops Hx.
  destruct (exec_ops_stores env ops s t tr s' t' o Hops Hx) as [Ha Hr].
  assert (Hws : returned o = true → write_set t' = buffered ops (write_set t)).
  { intros Ho. rewrite (exec_ops_buffered _ _ _ _ _ _ _ _ Hx Ho).
    unfold buffered. by rewrite foldl_app. }
  split_and!.
  - intros tr1 s1 t1 o1 H1 Ho1. by eapply exec_ops_buffered.
  - done.
  - intros Ho. rewrite (Hr Ho), (Hws Ho). split.
    + apply NoDup_fst_map_to_list.
    + intros a v. apply elem_of_map_to_list.
  - intros Henv. pose proof (exec_ops_accts _ _ _ _ _ _ _ _ Henv Hx) as Hs.
    unfold apply_stores in Hs. split.
    + intros Ho. rewrite (Ha Ho) in Hs. simpl in Hs. congruence.
    + intros Ho. rewrite (Hr Ho), (Hws Ho) in Hs.
      destruct (write_back_cells _ _ _ (NoDup_fst_map_to_list _) Hs) as [Hin Hout].
      split.
      * intros a v Hv. apply Hin. by apply elem_of_map_to_list.
      * intros a Hnone. apply Hout. intros [[a' v] [-> Hin']]%list_elem_of_fmap.
        apply elem_of_map_to_list in Hin'. simpl in Hnone. congruence.
Qed.

Lemma commit_all_or_nothing_witness :
  (let s := mkShared [mkAcct 0 1000; mkAcct 1 1000; mkAcct 2 1000] 0 in
   let ops := [OpBegin; OpRead 0; OpRead 1; OpWrite 0 950; OpWrite 1 1050] in
   ∃ tr s' t',
     exec_ops alone s tx_init (ops ++ [OpCommit]) tr s' t' RetVoid
     ∧ cell (accts s') 0 = Some (mkAcct 0 950)
     ∧ cell (accts s') 1 = Some (mkAcct 1 1050)
     ∧ cell (accts s') 2 = Some (mkAcct 2 1000))
  ∧ (let s := mkShared [mkAcct 0 1000; mkAcct 1 1000] 2 in
     let t := mkTx [mkAcct 0 999] {[1 := 5]} 0 in
     ∃ tr s' t',
       exec_ops alone s t ([] ++ [OpCommit]) tr s' t' Abort
       ∧ stores tr = [] ∧ accts s' = accts s).
Proof.
  assert (Halone : ∀ x y, alone x y → accts y = accts x).
  { unfold alone. by intros x y ->. }
  split.
  - intros s ops.
    destruct (run_ops 6 s tx_init (ops ++ [OpCommit])) as [s' t' o tr|] eqn:Hrun;
      [|vm_compute in Hrun; discriminate].
    pose proof (run_ops_exec_ops 6 _ _ _ _ _ _ _ Hrun) as Hx.
    vm_compute in Hrun. injection Hrun as <- <- <- <-.
    pose proof (commit_all_or_nothing alone s tx_init ops _ _ _ RetVoid
                  ltac:(repeat constructor; discriminate) Hx) as (_ & _ & _ & Hacc).
    destruct (Hacc Halone) as [_ Hcells]. destruct (Hcells eq_refl) as [Hin Hout].
    eexists _, _, _. split; [exact Hx|]. split_and!.
    + destruct (Hin 0 950 eq_refl) as (c & [= <-] & Hc). exact Hc.
    + destruct (Hin 1 1050 eq_refl) as (c & [= <-] & Hc). exact Hc.
    + exact (Hout 2 eq_refl).
  - intros s t.
    assert (Hrun : exec_ops alone s t ([] ++ [OpCommit])
                     [CasClock 0 1 false; LoadClock 2; LoadCell 0 1000] s t Abort).
    { apply (run_ops_exec_ops 5). reflexivity. }
    pose proof (commit_all_or_nothing alone s t [] _ s t Abort
                  ltac:(constructor) Hrun) as (_ & Ha & _ & Hacc).
    eexists _, _, _. split; [exact Hrun|]. split; [by apply Ha|].
    by apply (Hacc Halone).
Defined.

(** C7: with an empty write set [tx_commit] returns at its first step,
    without any access to shared memory (no compare-and-swap, no load or
    store of the clock, no store into the vector), with the shared and
    the thread-local state unchanged; it cannot end any other way. *)
Theorem read_only_commit env s t :
  write_set t = ∅ →
  tx_step s t Commit_entry = mkStep s t None (Finish RetVoid)
  ∧ (∀ fuel, run (S fuel) s t Commit_entry = Done s t RetVoid [])
  ∧ (∀ tr s' t' o, exec env s t Commit_entry tr s' t' o →
       tr = [] ∧ s' = s ∧ t' = t ∧ o = RetVoid).
Proof.
  intros H.
  assert (Hs : tx_step s t Commit_entry = mkStep s t None (Finish RetVoid)).
  { simpl. by rewrite decide_True. }
  split_and!; [done | |].
  - intros fuel. simpl. by rewrite decide_True.
  - intros tr s' t' o Hx. inversion Hx; subst.
    + rewrite Hs in *. simpl in *. by simplify_eq.
    + rewrite Hs in *. done.
Qed.

Lemma read_only_commit_witness :
  run 1 (mkShared [mkAcct 0 1000] 4) (mkTx [mkAcct 0 1000] ∅ 4) Commit_entry
  = Done (mkShared [mkAcct 0 1000] 4) (mkTx [mkAcct 0 1000] ∅ 4) RetVoid [].
Proof.
  refine (proj1 (proj2
    (read_only_commit alone (mkShared [mkAcct 0 1000] 4) (mkTx [mkAcct 0 1000] ∅ 4) _)) 0%nat).
  reflexivity.
Defined.

Lemma never_aborts_exec env s t pc tr s' t' o :
  exec env s t pc tr s' t' o → never_aborts pc = true → o ≠ Abort.
Proof.
  induction 1 as [s t pc o Hn | s t pc pc' s1 tr s2 t2 o Hn Henv Hx IH]; intros Hpc.
  - destruct pc; try done; step_inv Hn; done.
  - apply IH. destruct pc; try done; step_inv Hn; done.
Qed.

(** C8: a step raises the abort signal exactly when it is the comparison,
    inside [tx_validate], of a read-set entry whose recorded value differs
    from the value of its cell; that step only loads this cell, changes
    nothing and looks at no further entry; and no execution of
    [tx_begin], of [tx_write] or of the write-back and release of
    [tx_commit] ends by the abort signal. *)
Theorem abort_only_from_validation s t pc :
  (st_next (tx_step s t pc) = Finish Abort ↔
     ∃ k temp e rest c,
       pc = Val_scan k temp (e :: rest)
       ∧ cell (accts s) (addr e) = Some c ∧ value e ≠ value c)
  ∧ (st_next (tx_step s t pc) = Finish Abort →
       st_shared (tx_step s t pc) = s ∧ st_tx (tx_step s t pc) = t
       ∧ ∃ a v, st_event (tx_step s t pc) = Some (LoadCell a v))
  ∧ (never_aborts pc = true →
       ∀ env tr s' t' o, exec env s t pc tr s' t' o → o ≠ Abort).
Proof.
  split_and!.
  - split.
    + intros Hn. destruct pc; step_inv Hn.
      eexists _, _, _, _, _. split; [done|]. split; [done|].
      match goal with H : negb _ = true |- _ => by apply negb_true_iff, Z.eqb_neq in H end.
    + intros (k & temp & e & rest & c & -> & Hc & Hv). simpl. rewrite Hc. simpl.
      apply Z.eqb_neq in Hv. by rewrite Hv.
  - intros Hn. destruct pc; step_inv Hn; by_caller; try done; eauto.
  - intros Hpc env tr s' t' o Hx. by eapply never_aborts_exec.
Qed.

Lemma abort_only_from_validation_witness :
  st_shared (tx_step (mkShared [mkAcct 0 6] 0) (mkTx [mkAcct 0 5] ∅ 0)
               (Val_scan K_top 0 [mkAcct 0 5; mkAcct 0 5]))
  = mkShared [mkAcct 0 6] 0.
Proof.
  refine (proj1 (proj1 (proj2
    (abort_only_from_validation (mkShared [mkAcct 0 6] 0) (mkTx [mkAcct 0 5] ∅ 0)
       (Val_scan K_top 0 [mkAcct 0 5; mkAcct 0 5]))) _)).
  reflexivity.
Defined.
(** ** Versions and the clock, one step of one thread *)

Lemma step_clock_uint s t pc :
  is_uint (global_clock s) → is_uint (global_clock (st_shared (tx_step s t pc))).
Proof.
  intros Hc. destruct pc; simpl; unfold validate_return; repeat case_match; simpl;
    auto using to_uint_range.
Qed.

Lemma step_rv_ok s t pc :
  is_uint (global_clock s) → rv_ok t (Some pc) →
  rv_ok (st_tx (tx_step s t pc)) (next_pc (st_next (tx_step s t pc))).
Proof.
  intros Hc (Hu & He & Ht). unfold rv_ok.
  destruct pc; simpl in *; unfold validate_return, tx_abort; repeat case_match;
    simpl in *; simplify_eq; split_and!; try done; auto using to_uint_range;
    try (intros _; apply He; done).
  - intros _. rewrite <- land1_even. by apply negb_false_iff.
  - rewrite <- land1_even. by apply negb_false_iff.
  - intros _. by rewrite even_to_uint.
  - intros _. by rewrite even_to_uint.
Qed.

Lemma step_window s t pc :
  is_uint (global_clock s) → rv_ok t (Some pc) →
  st_next (tx_step s t pc) ≠ Finish Fault →
  window_change t (Some pc) (next_pc (st_next (tx_step s t pc)))
    (global_clock s) (global_clock (st_shared (tx_step s t pc)))
    (st_tx (tx_step s t pc)).
Proof.
  intros Hc (Hu & He & Ht) Hf. unfold window_change.
  destruct pc; simpl in *; unfold validate_return, tx_abort; repeat case_match;
    simpl in *; simplify_eq; try done.
  match goal with H : (_ =? _) = true |- _ => apply Z.eqb_eq in H end.
  split_and!; try done. apply even_succ_uint; [done|]. by apply He.
Qed.

Section Invariant.
Context {C : Type}.
Variable client : C → Act C.

Lemma thread_step_ok s th s' th' :
  is_uint (global_clock s) → rv_ok (th_tx th) (th_pc th) →
  thread_step client s th = Some (s', th') →
  is_uint (global_clock s') ∧ rv_ok (th_tx th') (th_pc th')
  ∧ window_change (th_tx th) (th_pc th) (th_pc th')
      (global_clock s) (global_clock s') (th_tx th').
Proof.
  intros Hc Hrv Hs. unfold thread_step in Hs.
  destruct th as [c t [pc|]]; simpl in *.
  - pose proof (step_clock_uint s t pc Hc) as H1.
    pose proof (step_rv_ok s t pc Hc Hrv) as H2.
    pose proof (step_window s t pc Hc Hrv) as H3.
    destruct (st_next (tx_step s t pc)) as [pc'|o] eqn:Hn; simpl in *.
    + simplify_eq. simpl. auto.
    + destruct o; try done; destruct (client c); simplify_eq; simpl; auto.
  - destruct Hrv as (Hu & He & _).
    destruct (client c) as [c'|op k|]; simplify_eq; simpl.
    + split; [done|]. split; [|done]. by split_and!.
    + split; [done|]. split.
      * split; [done|]. split; [intros _; by apply He|]. by destruct op.
      * unfold window_change. simpl. by destruct op.
Qed.

Lemma sys_step_inv i g g' :
  sys_step client i g = Some g' →
  ∃ th s' th', threads g !! i = Some th
    ∧ thread_step client (shared g) th = Some (s', th')
    ∧ g' = mkSystem s' (<[i := th']> (threads g)).
Proof.
  unfold sys_step. intros H.
  destruct (threads g !! i) as [th|]; [|done].
  destruct (thread_step client (shared g) th) as [[s' th']|] eqn:Hs; [|done].
  simplify_eq. by eexists _, _, _.
Qed.

(** While another thread is in its window, a step of a thread neither
    enters nor leaves a window, and leaves the clock alone. *)
Lemma step_beside_window g i th s' th' j thj :
  system_ok g →
  threads g !! i = Some th →
  thread_step client (shared g) th = Some (s', th') →
  threads g !! j = Some thj → j ≠ i → in_window (th_pc thj) = true →
  in_window (th_pc th) = false ∧ in_window (th_pc th') = false
  ∧ global_clock s' = global_clock (shared g).
Proof.
  intros (Hc & Hrv & Hw & Hu) Hi Hs Hj Hne Hwj.
  destruct (thread_step_ok _ _ _ _ Hc (Hrv _ _ Hi) Hs) as (_ & _ & Hwc).
  unfold window_change in Hwc.
  destruct (in_window (th_pc th)) eqn:Hwi.
  { exfalso. apply Hne. by eapply Hu. }
  destruct (in_window (th_pc th')) eqn:Hwi'; [|done].
  exfalso. destruct Hwc as (Hpc & Hclk & _ & _).
  destruct (Hrv _ _ Hi) as (_ & Hei & _). destruct (Hrv _ _ Hj) as (_ & Hej & _).
  pose proof (Hw _ _ Hj Hwj) as Hclkj.
  assert (Z.even (rv (th_tx th)) = true) as [a Ha]%Z.even_spec.
  { apply Hei. rewrite Hpc. done. }
  assert (Z.even (rv (th_tx thj)) = true) as [b Hb]%Z.even_spec.
  { apply Hej. intros Hb. rewrite Hb in Hwj. done. }
  lia.
Qed.

Lemma system_ok_step g g' : system_ok g → step client g g' → system_ok g'.
Proof.
  intros Hok [i Hstep].
  destruct (sys_step_inv _ _ _ Hstep) as (th & s' & th' & Hi & Hs & ->).
  pose proof Hok as (Hc & Hrv & Hw & Hu).
  destruct (thread_step_ok _ _ _ _ Hc (Hrv _ _ Hi) Hs) as (Hc' & Hrv' & Hwc).
  assert (Hlk : ∀ j thj, <[i := th']> (threads g) !! j = Some thj →
                (j = i ∧ thj = th') ∨ (j ≠ i ∧ threads g !! j = Some thj)).
  { intros j thj [(-> & -> & _)|[? ?]]%list_lookup_insert_Some; auto. }
  unfold system_ok. simpl. split_and!.
  - done.
  - intros j thj [[-> ->]|[Hne Hj]]%Hlk; [done | by eapply Hrv].
  - intros j thj [[-> ->]|[Hne Hj]]%Hlk Hwj.
    + unfold window_change in Hwc. rewrite Hwj in Hwc.
      destruct (in_window (th_pc th)) eqn:Hwi.
      * destruct Hwc as [-> ->]. by eapply Hw.
      * destruct Hwc as (_ & _ & -> & ->). done.
    + destruct (step_beside_window _ _ _ _ _ _ _ Hok Hi Hs Hj Hne Hwj) as (_ & _ & ->).
      by eapply Hw.
  - intros j1 j2 th1 th2 [[-> ->]|[Hne1 Hj1]]%Hlk [[-> ->]|[Hne2 Hj2]]%Hlk Hw1 Hw2.
    + done.
    + destruct (step_beside_window _ _ _ _ _ _ _ Hok Hi Hs Hj2 Hne2 Hw2) as (_ & ? & _).
      congruence.
    + destruct (step_beside_window _ _ _ _ _ _ _ Hok Hi Hs Hj1 Hne1 Hw1) as (_ & ? & _).
      congruence.
    + by eapply Hu.
Qed.

Lemma initial_ok (g : System C) : initial g → system_ok g.
Proof.
  intros [Hc Hth]. rewrite Forall_lookup in Hth.
  unfold system_ok. rewrite Hc. split_and!.
  - unfold is_uint. lia.
  - intros i th [-> ->]%Hth. unfold rv_ok, is_uint. simpl. split_and!; by try lia.
  - intros i th [_ ->]%Hth. done.
  - intros i j thi thj [_ ->]%Hth. done.
Qed.

Lemma reachable_ok g : reachable client g → system_ok g.
Proof.
  intros (g0 & Hinit & Hsteps). apply initial_ok in Hinit.
  induction Hsteps as [|g1 g2 g3 Hs _ IH]; [done|].
  apply IH. by eapply system_ok_step.
Qed.
End Invariant.

(** A schedule that runs is an execution of the system. *)
Lemma sys_run_rtc {C : Type} (client : C → Act C) sched : ∀ g g',
  sys_run client sched g = Some g' → rtc (step client) g g'.
Proof.
  induction sched as [|i sched IH]; intros g g'; simpl.
  - intros [= <-]. apply rtc_refl.
  - destruct (sys_step client i g) as [g1|] eqn:Hs; [|done].
    intros Hr. eapply rtc_l; [by exists i|]. by apply IH.
Qed.

(** ** What [tx_begin] and [tx_validate] hand back *)

Lemma begin_returns_even env s t pc tr s' t' o :
  exec env s t pc tr s' t' o → beginning pc = true →
  o = RetVoid ∧ Z.even (rv t') = true.
Proof.
  induction 1 as [s t pc o Hn | s t pc pc' s1 tr s2 t2 o Hn Henv Hx IH]; intros Hpc.
  - destruct pc; try done; step_inv Hn. split; [done|].
    rewrite <- land1_even. by apply negb_false_iff.
  - apply IH. destruct pc; try done; step_inv Hn; done.
Qed.

Lemma validate_returns_even env s t pc tr s' t' o :
  exec env s t pc tr s' t' o → validating_even pc →
  ∀ v, o = RetVal v → Z.even v = true.
Proof.
  induction 1 as [s t pc o Hn | s t pc pc' s1 tr s2 t2 o Hn Henv Hx IH]; intros Hpc v Ho.
  - destruct pc; try done; by_caller; try done; step_inv Hn; try done.
  - eapply IH; [|done]. destruct pc; try done; by_caller; try done; step_inv Hn; try done.
    rewrite <- land1_even. by apply negb_false_iff.
Qed.

(** ** The write-back *)

Lemma write_back_run pending : ∀ s t l,
  write_back pending (accts s) = Some l →
  run (length pending + 2) s t (Commit_wb pending)
  = Done (mkShared l (to_uint (rv t + 2))) t RetVoid
      (map store_event pending ++ [StoreClock (to_uint (rv t + 2))]).
Proof.
  induction pending as [|[a v] pending IH]; intros s t l Hwb; simpl in *.
  - by simplify_eq.
  - destruct (store_value a v (accts s)) as [l1|] eqn:Hst; [|done]. simpl.
    rewrite (IH (mkShared l1 (global_clock s)) t l Hwb). done.
Qed.

Lemma commit_alone s t l :
  write_set t ≠ ∅ → global_clock s = rv t →
  write_back (map_to_list (write_set t)) (accts s) = Some l →
  run (length (map_to_list (write_set t)) + 4) s t Commit_entry
  = Done (mkShared l (to_uint (rv t + 2))) t RetVoid
      (CasClock (rv t) (to_uint (rv t + 1)) true
       :: map store_event (map_to_list (write_set t))
       ++ [StoreClock (to_uint (rv t + 2))]).
Proof.
  intros Hws Hc Hwb.
  replace (length (map_to_list (write_set t)) + 4)%nat
    with (S (S (length (map_to_list (write_set t)) + 2))) by lia.
  simpl. rewrite decide_False by done. simpl.
  rewrite Hc, Z.eqb_refl. simpl.
  rewrite (write_back_run _ (set_clock s (to_uint (rv t + 1))) t l Hwb). done.
Qed.

(** ** The start version and the clock in a system of threads *)

(** C10: in every reachable state of a system of threads, whatever their
    clients do, the [rv] of a thread is even unless the thread is inside
    the loop of [tx_begin]; the [temp] that [tx_validate] is scanning
    with, hence any value it returns into [rv], is even; and at the
    compare-and-swap of [tx_commit] the expected value [rv] is even and
    the new value [rv + 1] is odd.  [tx_begin] ends only with an even
    [rv], and [tx_validate] returns only even values. *)
Theorem rv_is_even {C : Type} (client : C → Act C) g i th :
  reachable client g →
  threads g !! i = Some th →
  (th_pc th ≠ Some Begin_spin → Z.even (rv (th_tx th)) = true)
  ∧ (∀ k temp it,
       th_pc th = Some (Val_scan k temp it) ∨ th_pc th = Some (Val_recheck k temp it) →
       Z.even temp = true)
  ∧ (th_pc th = Some Commit_cas →
       Z.even (rv (th_tx th)) = true
       ∧ to_uint (rv (th_tx th) + 1) = rv (th_tx th) + 1
       ∧ Z.odd (to_uint (rv (th_tx th) + 1)) = true)
  ∧ (∀ env s t tr s' t' o,
       exec env s t (entry OpBegin) tr s' t' o → o = RetVoid ∧ Z.even (rv t') = true)
  ∧ (∀ env s t tr s' t' v,
       exec env s t (entry OpValidate) tr s' t' (RetVal v) → Z.even v = true).
Proof.
  intros Hr Hi. apply reachable_ok in Hr as (_ & Hrv & _ & _).
  destruct (Hrv _ _ Hi) as (Hu & He & Ht). split_and!.
  - done.
  - intros k temp it [Hpc|Hpc]; by rewrite Hpc in Ht.
  - intros Hpc. assert (Hev : Z.even (rv (th_tx th)) = true).
    { apply He. by rewrite Hpc. }
    destruct (even_succ_uint _ Hu Hev) as [Hs Ho]. by rewrite Hs.
  - intros env s t tr s' t' o Hx. by eapply begin_returns_even.
  - intros env s t tr s' t' v Hx. by eapply validate_returns_even.
Qed.

Lemma rv_is_even_witness :
  let rand := λ seed, (seed + 1, seed) in
  let g0 := mkSystem
              (mkShared [mkAcct 0 INIT_BALANCE; mkAcct 1 INIT_BALANCE;
                         mkAcct 2 INIT_BALANCE] 0)
              [th_start 0; th_start 1] in
  let sched := repeat 0%nat 122 ++ repeat 1%nat 127 ++ repeat 0%nat 4 in
  ∃ g th, sys_run (th_run rand 1) sched g0 = Some g
    ∧ threads g !! 0%nat = Some th
    ∧ th_pc th = Some Commit_cas
    ∧ global_clock (shared g) = 2
    ∧ rv (th_tx th) = 2
    ∧ Z.even (rv (th_tx th)) = true
    ∧ Z.odd (to_uint (rv (th_tx th) + 1)) = true.
Proof.
  intros rand g0 sched.
  destruct (sys_run (th_run rand 1) sched g0) as [g|] eqn:Hg;
    [|vm_compute in Hg; discriminate].
  assert (Hr : reachable (th_run rand 1) g).
  { exists g0. split.
    - split; [reflexivity|]. repeat constructor.
    - apply (sys_run_rtc (th_run rand 1) sched). exact Hg. }
  vm_compute in Hg. injection Hg as <-.
  eexists _, _. split; [reflexivity|]. split; [reflexivity|].
  split; [reflexivity|]. split; [reflexivity|]. split; [reflexivity|].
  pose proof (rv_is_even (th_run rand 1) _ 0%nat _ Hr eq_refl) as (_ & _ & Hcas & _).
  destruct (Hcas eq_refl) as (He & _ & Ho). split; [exact He | exact Ho].
Defined.

Section Clock.
Context {C : Type}.
Variable client : C → Act C.

(** A step of the system leaves the clock alone, or is the successful
    compare-and-swap of a thread whose [rv] is the (even) clock, or is
    the release store of the thread holding the (odd) clock. *)
Lemma step_clock g g' :
  system_ok g → step client g g' →
  global_clock (shared g') = global_clock (shared g)
  ∨ (∃ i th, threads g !! i = Some th ∧ th_pc th = Some Commit_cas
       ∧ Z.even (global_clock (shared g)) = true
       ∧ global_clock (shared g) = rv (th_tx th)
       ∧ global_clock (shared g') = rv (th_tx th) + 1)
  ∨ (∃ i th, threads g !! i = Some th ∧ th_pc th = Some Commit_release
       ∧ global_clock (shared g) = rv (th_tx th) + 1
       ∧ global_clock (shared g') = to_uint (rv (th_tx th) + 2)).
Proof.
  intros (Hc & Hrv & Hw & Hu) [i Hstep].
  destruct (sys_step_inv _ _ _ _ Hstep) as (th & s' & th' & Hi & Hs & ->).
  destruct (thread_step_ok _ _ _ _ _ Hc (Hrv _ _ Hi) Hs) as (_ & _ & Hwc).
  unfold window_change in Hwc. simpl.
  destruct (in_window (th_pc th)) eqn:Hwi, (in_window (th_pc th')) eqn:Hwi'.
  - left. by destruct Hwc.
  - right. right. destruct Hwc as [Hpc ->]. exists i, th. split_and!; try done.
    by apply Hw in Hi.
  - right. left. destruct Hwc as (Hpc & Hclk & -> & _). exists i, th.
    split_and!; try done. rewrite Hclk.
    destruct (Hrv _ _ Hi) as (_ & He & _). apply He. by rewrite Hpc.
  - by left.
Qed.

Lemma step_clock_monotone g g' :
  system_ok g → step client g g' →
  global_clock (shared g) < 2 ^ 32 - 1 →
  global_clock (shared g) ≤ global_clock (shared g').
Proof.
  intros Hok Hs Hlt.
  destruct (step_clock _ _ Hok Hs)
    as [-> | [(i & th & _ & _ & _ & <- & ->) | (i & th & _ & _ & Hc & ->)]];
    [lia | lia |].
  destruct Hok as (Hu & _). rewrite Hc in *. wrap_arith.
Qed.
End Clock.

(** C4, as amended: when the compare-and-swap of [tx_commit] fails the
    thread goes to [tx_validate], whose return refreshes [rv] and leads
    back to the compare-and-swap; when it succeeds, the thread running
    alone stores every pair of a non-empty write set into the vector and
    then stores [rv + 2] modulo 2^32 into the clock; in a system of
    threads every step leaves the clock unchanged, or moves it from an
    even value [rv] to [rv + 1] by a compare-and-swap, or from [rv + 1] to
    [rv + 2] modulo 2^32 by the release store of the same commit, so a
    successful writing commit advances the clock by 2 modulo 2^32 and the
    clock never decreases while it is below 2^32 - 1. *)
Theorem commit_protocol :
  (∀ s t, global_clock s ≠ rv t →
     tx_step s t Commit_cas
     = mkStep s t (Some (CasClock (rv t) (to_uint (rv t + 1)) false))
         (Goto (Val_clock K_commit)))
  ∧ (∀ s t temp rest, to_uint temp = global_clock s →
       tx_step s t (Val_recheck K_commit temp rest)
       = mkStep s (set_rv t (global_clock s)) (Some (LoadClock (global_clock s)))
           (Goto Commit_cas))
  ∧ (∀ s t l,
       write_set t ≠ ∅ → global_clock s = rv t →
       write_back (map_to_list (write_set t)) (accts s) = Some l →
       run (length (map_to_list (write_set t)) + 4) s t Commit_entry
       = Done (mkShared l (to_uint (rv t + 2))) t RetVoid
           (CasClock (rv t) (to_uint (rv t + 1)) true
            :: map store_event (map_to_list (write_set t))
            ++ [StoreClock (to_uint (rv t + 2))])
       ∧ (∀ a v, write_set t !! a = Some v →
            ∃ c, cell (accts s) a = Some c ∧ cell l a = Some (mkAcct (addr c) v))
       ∧ (∀ a, write_set t !! a = None → cell l a = cell (accts s) a))
  ∧ (∀ (C : Type) (client : C → Act C) g g',
       reachable client g → step client g g' →
       (global_clock (shared g') = global_clock (shared g)
        ∨ (∃ i th, threads g !! i = Some th ∧ th_pc th = Some Commit_cas
             ∧ Z.even (global_clock (shared g)) = true
             ∧ global_clock (shared g) = rv (th_tx th)
             ∧ global_clock (shared g') = rv (th_tx th) + 1)
        ∨ (∃ i th, threads g !! i = Some th ∧ th_pc th = Some Commit_release
             ∧ global_clock (shared g) = rv (th_tx th) + 1
             ∧ global_clock (shared g') = to_uint (rv (th_tx th) + 2)))
       ∧ (global_clock (shared g) < 2 ^ 32 - 1 →
          global_clock (shared g) ≤ global_clock (shared g'))).
Proof.
  split_and!.
  - intros s t Hc. simpl. apply Z.eqb_neq in Hc. by rewrite Hc.
  - intros s t temp rest Hc. simpl. rewrite Hc, Z.eqb_refl. done.
  - intros s t l Hws Hc Hwb. split; [by apply commit_alone|].
    destruct (write_back_cells _ _ _ (NoDup_fst_map_to_list _) Hwb) as [Hin Hout].
    split.
    + intros a v Hv. apply Hin. by apply elem_of_map_to_list.
    + intros a Ha. apply Hout. intros [[a' v] [-> Hin']]%list_elem_of_fmap.
      apply elem_of_map_to_list in Hin'. simpl in Ha. congruence.
  - intros C client g g' Hr Hs. apply reachable_ok in Hr.
    split; [by eapply step_clock | by eapply step_clock_monotone].
Qed.

Lemma commit_protocol_witness :
  run 5 (mkShared [mkAcct 0 1000] 4) (mkTx [] {[0 := 950]} 4) Commit_entry
  = Done (mkShared [mkAcct 0 950] 6) (mkTx [] {[0 := 950]} 4) RetVoid
      [CasClock 4 5 true; StoreCell 0 950; StoreClock 6].
Proof.
  refine (proj1 (proj1 (proj2 (proj2 commit_protocol))
            (mkShared [mkAcct 0 1000] 4) (mkTx [] {[0 := 950]} 4) [mkAcct 0 950] _ _ _)).
  - discriminate.
  - reflexivity.
  - reflexivity.
Defined.

(** ** Conservation *)

Lemma totalMoney_insert l : ∀ n c v,
  l !! n = Some c →
  totalMoney (<[n := mkAcct (addr c) v]> l) = totalMoney l - value c + v.
Proof.
  induction l as [|x l IH]; intros [|n] c v Hn; simpl in *; try done.
  - simplify_eq. lia.
  - rewrite (IH _ _ _ Hn). lia.
Qed.

Lemma totalMoney_store a v l l' c :
  cell l a = Some c → store_value a v l = Some l' →
  totalMoney l' = totalMoney l - value c + v.
Proof.
  unfold store_value. intros Hc. rewrite Hc. intros [= <-].
  unfold cell in Hc. destruct (0 <=? a); [|done]. by apply totalMoney_insert.
Qed.

Lemma store_value_defined a v l c :
  cell l a = Some c → ∃ l', store_value a v l = Some l'.
Proof. unfold store_value. intros ->. eauto. Qed.

(** Writing back two distinct accounts, whose new balances add up to the
    old ones. *)
Lemma write_back_pair l a b x y ca cb :
  a ≠ b → cell l a = Some ca → cell l b = Some cb →
  x + y = value ca + value cb →
  ∃ l', write_back [(a, x); (b, y)] l = Some l' ∧ totalMoney l' = totalMoney l.
Proof.
  intros Hab Ha Hb Hsum. simpl.
  destruct (store_value_defined a x l ca Ha) as [l1 H1]. rewrite H1.
  destruct (cell_store_value _ _ _ _ H1) as [_ Hother].
  assert (Hb1 : cell l1 b = Some cb) by (rewrite Hother; done).
  destruct (store_value_defined b y l1 cb Hb1) as [l2 H2]. rewrite H2.
  exists l2. split; [done|].
  rewrite (totalMoney_store _ _ _ _ _ Hb1 H2), (totalMoney_store _ _ _ _ _ Ha H1). lia.
Qed.

(** Each call run alone, when the clock is even and does not move. *)
Lemma begin_alone n s t :
  Z.even (global_clock s) = true →
  run (S (S n)) s t Begin_clear
  = Done s (mkTx [] ∅ (global_clock s)) RetVoid [LoadClock (global_clock s)].
Proof. intros Hev. simpl. by rewrite land1_even, Hev. Qed.

Lemma read_alone n s t a c :
  write_set t !! a = None → cell (accts s) a = Some c → rv t = global_clock s →
  run (S (S (S n))) s t (Read_lookup a)
  = Done s (mkTx (read_set t ++ [mkAcct a (value c)]) (write_set t) (rv t))
      (RetVal (value c)) [LoadCell a (value c); LoadClock (global_clock s)].
Proof. intros Hws Hc Hrv. simpl. rewrite Hws. simpl. rewrite Hc. simpl. by rewrite Hrv, Z.eqb_refl. Qed.

Lemma write_alone n s t a v :
  run (S n) s t (Write_emplace a v)
  = Done s (mkTx (read_set t) (emplace a v (write_set t)) (rv t)) RetVoid [].
Proof. done. Qed.

(** X18: one transfer run alone, between two distinct accounts whose
    balances do not overflow, commits, leaves the total unchanged and
    advances the clock by 2. *)
Lemma transfer_alone_conserves s t r1 r2 c1 c2 :
  Z.even (global_clock s) = true →
  r1 ≠ r2 → cell (accts s) r1 = Some c1 → cell (accts s) r2 = Some c2 →
  - 2 ^ 31 ≤ value c1 - TRFR_AMT < 2 ^ 31 →
  - 2 ^ 31 ≤ value c2 + TRFR_AMT < 2 ^ 31 →
  ∃ s' t' tr,
    run_ops 6 s t (transfer r1 r2 (value c1) (value c2)) = Done s' t' RetVoid tr
    ∧ totalMoney (accts s') = totalMoney (accts s)
    ∧ global_clock s' = to_uint (global_clock s + 2).
Proof.
  intros Hev Hne Hc1 Hc2 Hb1 Hb2.
  assert (Hx : to_int (value c1 - TRFR_AMT) = value c1 - TRFR_AMT) by wrap_arith.
  assert (Hy : to_int (value c2 + TRFR_AMT) = value c2 + TRFR_AMT) by wrap_arith.
  set (x := value c1 - TRFR_AMT) in *. set (y := value c2 + TRFR_AMT) in *.
  set (ws := <[r2 := y]> ({[r1 := x]} : gmap Z Z)).
  assert (Hws : ws ≠ ∅) by (apply insert_non_empty).
  assert (Hperm : [(r2, y); (r1, x)] ≡ₚ map_to_list ws).
  { unfold ws. rewrite map_to_list_insert by (by apply lookup_singleton_ne).
    by rewrite map_to_list_singleton. }
  set (t2 := mkTx [mkAcct r1 (value c1); mkAcct r2 (value c2)] ws (global_clock s)).
  assert (Hwb : ∃ l, write_back (map_to_list ws) (accts s) = Some l
                     ∧ totalMoney l = totalMoney (accts s)).
  { destruct (Permutation_length_2_inv Hperm) as [-> | ->].
    - apply (write_back_pair _ _ _ _ _ c2 c1); try done. unfold x, y. lia.
    - apply (write_back_pair _ _ _ _ _ c1 c2); try done. unfold x, y. lia. }
  destruct Hwb as (l & Hwb & Htot).
  pose proof (commit_alone s t2 l Hws eq_refl Hwb) as Hcommit.
  assert (Hlen : length (map_to_list (write_set t2)) = 2%nat).
  { change (write_set t2) with ws. by rewrite <- Hperm. }
  rewrite Hlen in Hcommit. change (2 + 4)%nat with 6%nat in Hcommit.
  exists (mkShared l (to_uint (global_clock s + 2))), t2.
  eexists. split; [|split; [exact Htot | reflexivity]].
  unfold transfer. fold x y. rewrite Hx, Hy. cbn [run_ops entry returned].
  rewrite (begin_alone 4 s t Hev). cbn [returned].
  rewrite (read_alone 3 s _ r1 c1) by done. cbn [returned read_set write_set rv app].
  rewrite (read_alone 3 s _ r2 c2) by done. cbn [returned read_set write_set rv app].
  rewrite !write_alone. cbn [returned read_set write_set rv app].
  replace (emplace r2 y (emplace r1 x ∅)) with ws.
  2:{ unfold ws, emplace. rewrite lookup_empty.
      change (<[r1:=x]> (∅ : gmap Z Z)) with ({[r1 := x]} : gmap Z Z).
      by rewrite lookup_singleton_ne. }
  fold t2. rewrite Hcommit. reflexivity.
Qed.

(** C3 (the code departs from the claim): [main] run with one extra
    thread, so that [th_run(0)] and [th_run(1)] execute together, on
    accounts that all hold 50 or more.  The first thread prepares a
    transfer from account 0 to account 1 and is about to commit; the
    second thread then transfers from account 1 to account 2 and
    commits; the first thread revalidates, which compares only the first
    entry of its read set, and commits too.  Both transfers are
    committed, and the total of the balances has grown by 50. *)
Theorem lost_update_breaks_conservation (rest : list Acct) :
  let rand := λ seed, (seed + 1, seed) in
  let g0 := mkSystem
              (mkShared (mkAcct 0 INIT_BALANCE :: mkAcct 1 INIT_BALANCE
                         :: mkAcct 2 INIT_BALANCE :: rest) 0)
              [th_start 0; th_start 1] in
  let sched := repeat 0%nat 122 ++ repeat 1%nat 127 ++ repeat 0%nat 9 in
  initial g0 ∧
  ∃ g, sys_run (th_run rand 1) sched g0 = Some g
     ∧ map (λ th, (d_pc (th_client th), d_i (th_client th), th_pc th)) (threads g)
       = [(D_for_i, 1, None); (D_for_i, 1, None)]
     ∧ accts (shared g) = mkAcct 0 950 :: mkAcct 1 1050 :: mkAcct 2 1050 :: rest
     ∧ totalMoney (accts (shared g)) = totalMoney (accts (shared g0)) + 50.
Proof.
  intros rand g0 sched. split.
  - split; [reflexivity|]. repeat constructor.
  - eexists. split; [vm_compute; reflexivity|].
    split; [reflexivity|]. split; [reflexivity|].
    simpl. unfold INIT_BALANCE. lia.
Qed.

(** The same two transfers run one after the other conserve the total. *)
Lemma serial_transfers_conserve (rest : list Acct) :
  let rand := λ seed, (seed + 1, seed) in
  let g0 := mkSystem
              (mkShared (mkAcct 0 INIT_BALANCE :: mkAcct 1 INIT_BALANCE
                         :: mkAcct 2 INIT_BALANCE :: rest) 0)
              [th_start 0; th_start 1] in
  let sched := repeat 0%nat 127 ++ repeat 1%nat 127 in
  ∃ g, sys_run (th_run rand 1) sched g0 = Some g
     ∧ map (λ th, (d_pc (th_client th), d_i (th_client th), th_pc th)) (threads g)
       = [(D_for_i, 1, None); (D_for_i, 1, None)]
     ∧ accts (shared g) = mkAcct 0 950 :: mkAcct 1 1000 :: mkAcct 2 1050 :: rest
     ∧ totalMoney (accts (shared g)) = totalMoney (accts (shared g0)).
Proof.
  intros rand g0 sched.
  eexists. split; [vm_compute; reflexivity|].
  split; [reflexivity|]. split; [reflexivity|].
  simpl. unfold INIT_BALANCE. lia.
Qed.

(** ** Termination of [tx_read] *)

Section Schedules.
Context {C : Type}.
Variable client : C → Act C.

Lemma sys_run_app l1 : ∀ l2 g,
  sys_run client (l1 ++ l2) g
  = match sys_run client l1 g with
    | Some g' => sys_run client l2 g'
    | None => None
    end.
Proof.
  induction l1 as [|i l1 IH]; intros l2 g; simpl; [done|].
  destruct (sys_step client i g); [apply IH | done].
Qed.

Lemma validating_nothing_step i c g :
  validating_nothing i c g →
  ∃ g', sys_step client i g = Some g' ∧ validating_nothing i c g'.
Proof.
  intros (th & pc & Hi & Hc & Hpc & Hn & Hrs).
  destruct (nothing_to_scan_step (shared g) (th_tx th) pc Hrs Hn) as (pc' & Hs & Hn').
  unfold sys_step, thread_step. rewrite Hi, Hpc. simpl.
  rewrite Hs. simpl. eexists. split; [done|].
  eexists _, pc'. simpl.
  split; [apply list_lookup_insert_eq; by eapply lookup_lt_Some|]. done.
Qed.

Lemma validating_nothing_forever i c n : ∀ g,
  validating_nothing i c g →
  ∃ g', sys_run client (repeat i n) g = Some g' ∧ validating_nothing i c g'.
Proof.
  induction n as [|n IH]; intros g Hg; simpl; [by eauto|].
  destruct (validating_nothing_step i c g Hg) as (g1 & -> & Hg1). by apply IH.
Qed.
End Schedules.

(** C5 (the code departs from the claim): a transaction that began at
    clock 0 and has read nothing yet calls [tx_read(0)] when the clock has
    moved to 2; run alone, the call is still running after any number of
    steps, and no execution of it ends, neither by a return nor by an
    abort.  The state arises in [main] run with one extra thread: the
    first thread begins, the second commits a transfer, and from then on
    the first thread stays inside the [tx_validate] of its first
    [tx_read] however long it is scheduled. *)
Theorem tx_read_does_not_terminate :
  (let s := mkShared [mkAcct 0 1000] 2 in
   let t := mkTx [] ∅ 0 in
   (∀ fuel, ∃ pc tr, run fuel s t (Read_lookup 0) = Spinning s t pc tr)
   ∧ (∀ tr s' t' o, ¬ exec alone s t (Read_lookup 0) tr s' t' o))
  ∧ (∀ (rest : list Acct) (n : nat),
       let rand := λ seed, (seed + 1, seed) in
       let g0 := mkSystem
                   (mkShared (mkAcct 0 INIT_BALANCE :: mkAcct 1 INIT_BALANCE
                              :: mkAcct 2 INIT_BALANCE :: rest) 0)
                   [th_start 0; th_start 1] in
       let sched := (repeat 0%nat 4 ++ repeat 1%nat 127 ++ repeat 0%nat 7)
                    ++ repeat 0%nat n in
       ∃ g, sys_run (th_run rand 1) sched g0 = Some g
          ∧ validating_nothing 0 (mkDriver D_read1 2 0 0 0 1 0 0) g).
Proof.
  split.
  - intros s t. split.
    + intros fuel. by eapply read_stale_empty_spins.
    + intros tr s' t' o Hx. apply exec_run in Hx as [fuel Hr].
      destruct (read_stale_empty_spins fuel s t 0 (mkAcct 0 1000)) as (pc & tr' & Hs); try done.
      congruence.
  - intros rest n rand g0 sched. unfold sched. rewrite sys_run_app.
    destruct (sys_run _ (repeat 0%nat 4 ++ _) g0) as [g1|] eqn:Hg1;
      vm_compute in Hg1; [|done].
    apply validating_nothing_forever.
    injection Hg1 as <-. eexists _, _. simpl. split_and!; reflexivity.
Qed.

(** ** The clock wraps around *)

Lemma writer_to_release x c t :
  Z.even c = true →
  sys_run writer (repeat 0%nat 10) (writer_at x c t)
  = Some (mkSystem (mkShared [mkAcct 0 1] (to_uint (c + 1)))
            [mkThread W_commit (mkTx [] {[0 := 1]} c) (Some Commit_release)]).
Proof.
  intros Hc.
  assert (Hl : negb (Z.land c 1 =? 0) = false).
  { rewrite land1_even, Hc. done. }
  unfold writer_at. simpl. unfold sys_step, thread_step; simpl.
  rewrite Hl. simpl.
  change (emplace 0 1 ∅) with ({[0 := 1]} : gmap Z Z).
  rewrite decide_False by done. simpl.
  rewrite Z.eqb_refl. simpl. rewrite map_to_list_singleton. simpl. done.
Qed.

Lemma writer_round x c t :
  Z.even c = true →
  sys_run writer (repeat 0%nat 11) (writer_at x c t)
  = Some (writer_at 1 (to_uint (c + 2)) (mkTx [] {[0 := 1]} c)).
Proof.
  intros Hc. change 11%nat with (10 + 1)%nat.
  rewrite repeat_app, sys_run_app, (writer_to_release _ _ _ Hc). done.
Qed.

Lemma writer_rounds x t (n : nat) :
  2 * Z.of_nat n < 4294967296 →
  ∃ x' t', rtc (step writer) (writer_at x 0 t) (writer_at x' (2 * Z.of_nat n) t').
Proof.
  induction n as [|n IH]; intros Hn.
  - exists x, t. apply rtc_refl.
  - destruct IH as (x' & t' & IH); [lia|].
    assert (Hev : Z.even (2 * Z.of_nat n) = true)
      by (apply Z.even_spec; eexists; reflexivity).
    pose proof (writer_round x' _ t' Hev) as Hr.
    replace (to_uint (2 * Z.of_nat n + 2)) with (2 * Z.of_nat (S n)) in Hr.
    2:{ rewrite to_uint_id; [lia|]. unfold is_uint. change (2 ^ 32) with 4294967296. lia. }
    eexists _, _. etrans; [exact IH|]. by eapply sys_run_rtc.
Qed.

(** C4, as stated, fails: a commit that finds the clock at 2^32 - 2
    stores 0 into it, so the clock is not advanced by 2 and decreases;
    and such a state is reached by a thread that commits 2^31 - 1 writing
    transactions one after the other. *)
Lemma commit_wraps_clock :
  (let s := mkShared [mkAcct 0 1000] 4294967294 in
   let t := mkTx [] {[0 := 950]} 4294967294 in
   ∃ s', run 5 s t Commit_entry
         = Done s' t RetVoid
             [CasClock 4294967294 4294967295 true; StoreCell 0 950; StoreClock 0]
       ∧ global_clock s' ≠ global_clock s + 2
       ∧ global_clock s' < global_clock s)
  ∧ (∃ g g', reachable writer g ∧ step writer g g'
       ∧ global_clock (shared g) = 4294967295
       ∧ global_clock (shared g') = 0).
Proof.
  split.
  - eexists. split; [vm_compute; reflexivity|]. split; simpl; lia.
  - destruct (writer_rounds 0 tx_init (Z.to_nat 2147483647)) as (x & t & Hr).
    { rewrite Z2Nat.id by lia. done. }
    rewrite Z2Nat.id in Hr by lia. change (2 * 2147483647) with 4294967294 in Hr.
    pose proof (writer_to_release x 4294967294 t eq_refl) as Hw.
    change (to_uint (4294967294 + 1)) with 4294967295 in Hw.
    eexists _, _. split_and!.
    + exists (writer_at 0 0 tx_init). split.
      * split; [reflexivity|]. repeat constructor.
      * etrans; [exact Hr|]. eapply sys_run_rtc, Hw.
    + exists 0%nat. reflexivity.
    + reflexivity.
    + reflexivity.
Qed.

(** * Further properties of the code *)

(** ** [tx_begin] *)

Lemma begin_exec env s t pc tr s' t' o :
  exec env s t pc tr s' t' o → beginning pc = true →
  (pc = Begin_spin → read_set t = [] ∧ write_set t = ∅) →
  o = RetVoid ∧ read_set t' = [] ∧ write_set t' = ∅
  ∧ rv t' = global_clock s' ∧ Z.even (rv t') = true
  ∧ forallb is_clock_load tr = true.
Proof.
  induction 1 as [s t pc o Hn | s t pc pc' s1 tr s2 t2 o Hn Henv Hx IH]; intros Hpc Hsets.
  - destruct pc; try done; step_inv Hn. destruct Hsets as [-> ->]; [done|].
    split_and!; try done. rewrite <- land1_even. by apply negb_false_iff.
  - destruct pc; try done; step_inv Hn.
    + apply IH; [done|]. done.
    + destruct Hsets as [Hr Hw]; [done|]. apply IH; [done|]. done.
Qed.

(** X1: however the clock moves meanwhile, [tx_begin] can only end by
    returning, with both sets empty and with [rv] equal to the even clock
    value it read last; it only loads the clock. *)
Theorem tx_begin_result env s t tr s' t' o :
  exec env s t (entry OpBegin) tr s' t' o →
  o = RetVoid ∧ read_set t' = [] ∧ write_set t' = ∅
  ∧ rv t' = global_clock s' ∧ Z.even (rv t') = true
  ∧ forallb is_clock_load tr = true.
Proof. intros Hx. by eapply begin_exec. Qed.

Lemma tx_begin_result_witness :
  rv (mkTx [] ∅ 4) = global_clock (mkShared [mkAcct 0 1000] 4).
Proof.
  refine (proj1 (proj2 (proj2 (proj2
    (tx_begin_result alone (mkShared [mkAcct 0 1000] 4) (mkTx [mkAcct 0 1] {[0 := 2]} 2)
       [LoadClock 4] (mkShared [mkAcct 0 1000] 4) (mkTx [] ∅ 4) RetVoid _))))).
  apply (run_exec 2). reflexivity.
Defined.

(** ** Waiting for an even clock *)

Lemma begin_odd_spins fuel : ∀ s t pc,
  Z.even (global_clock s) = false → beginning pc = true →
  ∃ t' pc' tr, run fuel s t pc = Spinning s t' pc' tr.
Proof.
  induction fuel as [|n IH]; intros s t pc Hodd Hpc; simpl; [by eauto|].
  destruct pc; try done; simpl.
  - destruct (IH s (mkTx [] ∅ (rv t)) Begin_spin Hodd eq_refl) as (t' & pc' & tr & ->).
    simpl. eauto.
  - rewrite land1_even, Hodd. simpl.
    destruct (IH s (set_rv t (global_clock s)) Begin_spin Hodd eq_refl) as (t' & pc' & tr & ->).
    simpl. eauto.
Qed.

Lemma validate_odd_spins fuel : ∀ s t k,
  Z.even (global_clock s) = false →
  ∃ tr, run fuel s t (Val_clock k) = Spinning s t (Val_clock k) tr.
Proof.
  induction fuel as [|n IH]; intros s t k Hodd; simpl; [by eauto|].
  rewrite land1_even, even_to_int, Hodd. simpl.
  destruct (IH s t k Hodd) as (tr & ->). simpl. eauto.
Qed.

(** X2: while the clock is odd and nobody changes it, neither
    [tx_begin] nor [tx_validate] ever finishes: both keep reading the
    clock. *)
Theorem odd_clock_spins s t :
  Z.even (global_clock s) = false →
  (∀ fuel, ∃ t' pc tr, run fuel s t (entry OpBegin) = Spinning s t' pc tr)
  ∧ (∀ fuel k, ∃ tr, run fuel s t (Val_clock k) = Spinning s t (Val_clock k) tr).
Proof.
  intros Hodd. split.
  - intros fuel. by apply begin_odd_spins.
  - intros fuel k. by apply validate_odd_spins.
Qed.

Lemma odd_clock_spins_witness :
  ∃ tr, run 50 (mkShared [] 3) tx_init (Val_clock K_top)
        = Spinning (mkShared [] 3) tx_init (Val_clock K_top) tr.
Proof.
  refine (proj2 (odd_clock_spins (mkShared [] 3) tx_init _) 50%nat K_top).
  reflexivity.
Defined.

(** ** [tx_write] and reading one's own writes *)

Lemma exec_write env s t a v tr s' t' o :
  exec env s t (Write_emplace a v) tr s' t' o →
  o = RetVoid ∧ tr = [] ∧ s' = s
  ∧ t' = mkTx (read_set t) (emplace a v (write_set t)) (rv t).
Proof. intros Hx. inversion Hx as [? ? ? ? Hn|? ? ? ? ? ? ? ? ? Hn]; subst; step_inv Hn. done. Qed.

Lemma emplace_lookup a v ws :
  emplace a v ws !! a = Some (default v (ws !! a))
  ∧ ∀ b, b ≠ a → emplace a v ws !! b = ws !! b.
Proof.
  unfold emplace. destruct (ws !! a) as [w|] eqn:Hw; simpl.
  - done.
  - split; [apply lookup_insert_eq|]. intros b Hb. by apply lookup_insert_ne.
Qed.

(** X3: [tx_write(a, v)] returns at once without touching shared
    memory, the read set or [rv]; afterwards the write set maps [a] to the
    value it already had for [a], or to [v] when it had none, and every
    other address as before. *)
Theorem tx_write_effect env s t a v tr s' t' o :
  exec env s t (entry (OpWrite a v)) tr s' t' o →
  o = RetVoid ∧ tr = [] ∧ s' = s
  ∧ read_set t' = read_set t ∧ rv t' = rv t
  ∧ write_set t' !! a = Some (default v (write_set t !! a))
  ∧ ∀ b, b ≠ a → write_set t' !! b = write_set t !! b.
Proof.
  intros Hx. apply exec_write in Hx as (-> & -> & -> & ->). simpl.
  destruct (emplace_lookup a v (write_set t)) as [Ha Hb]. done.
Qed.

Lemma tx_write_effect_witness :
  write_set (mkTx [] (emplace 3 9 {[3 := 5]}) 0) !! 3
  = Some (default 9 (write_set (mkTx [] {[3 := 5]} 0) !! 3)).
Proof.
  refine (proj1 (proj2 (proj2 (proj2 (proj2 (proj2
    (tx_write_effect alone (mkShared [] 0) (mkTx [] {[3 := 5]} 0) 3 9 []
       (mkShared [] 0) (mkTx [] (emplace 3 9 {[3 := 5]}) 0) RetVoid _))))))).
  apply (run_exec 1). reflexivity.
Defined.

Lemma exec_read_hit env s t a v tr s' t' o :
  write_set t !! a = Some v →
  exec env s t (Read_lookup a) tr s' t' o →
  o = RetVal v ∧ tr = [] ∧ s' = s ∧ t' = t.
Proof.
  intros Hw Hx.
  inversion Hx as [? ? ? ? Hn|? ? ? ? ? ? ? ? ? Hn]; subst; simpl in *; rewrite Hw in *;
    simpl in *; by simplify_eq.
Qed.

(** X4: [tx_write(a, v)] followed by [tx_read(a)] returns the value
    buffered for [a]: [v] when [a] was not yet written in the transaction,
    the earlier value otherwise; no shared memory is accessed and the read
    set does not grow, whatever the other threads do. *)
Theorem tx_write_then_read env s t a v tr s' t' o :
  exec_ops env s t [OpWrite a v; OpRead a] tr s' t' o →
  o = RetVal (default v (write_set t !! a)) ∧ tr = []
  ∧ read_set t' = read_set t ∧ rv t' = rv t
  ∧ write_set t' = emplace a v (write_set t).
Proof.
  intros Hx.
  inversion Hx as [| |? ? ? ? ? ? ? ? ? ? ? ? ? ? Hw Hret Henv Hrest|? ? ? ? ? ? ? ? ? Hw Hret]; subst.
  - apply exec_write in Hw as (-> & -> & -> & ->).
    inversion Hrest as [|? ? ? ? ? ? ? Hr| |]; subst.
    destruct (emplace_lookup a v (write_set t)) as [Ha _].
    eapply exec_read_hit in Hr as (-> & -> & -> & ->); [|exact Ha]. done.
  - apply exec_write in Hw as (-> & _). done.
Qed.

Lemma tx_write_then_read_witness :
  RetVal 7 = RetVal (default 7 (write_set tx_init !! 0)).
Proof.
  refine (proj1
    (tx_write_then_read alone (mkShared [mkAcct 0 1000] 2) tx_init 0 7 []
       (mkShared [mkAcct 0 1000] 2) (mkTx [] {[0 := 7]} 0) (RetVal 7) _)).
  apply (run_ops_exec_ops 1). reflexivity.
Defined.

(** ** [tx_read] from the shared memory *)

Lemma exec_reading env a s t pc tr s' t' o :
  exec env s t pc tr s' t' o → reading a pc = true →
  ∀ v, o = RetVal v →
    read_set t' = read_set t ++ [mkAcct a v]
    ∧ write_set t' = write_set t
    ∧ rv t' = global_clock s'
    ∧ forallb is_load tr = true
    ∧ match pc with
      | Read_check _ val =>
          (val = v ∧ tr = [LoadClock (rv t')])
          ∨ ∃ tr0, tr = tr0 ++ [LoadCell a v; LoadClock (rv t')]
      | _ => ∃ tr0, tr = tr0 ++ [LoadCell a v; LoadClock (rv t')]
      end.
Proof.
  induction 1 as [s t pc o Hn | s t pc pc' s1 tr s2 t2 o Hn Henv Hx IH]; intros Hpc v Ho.
  - destruct pc; try done; by_caller; try done; apply bool_decide_eq_true in Hpc; subst;
      step_inv Hn; try done.
    match goal with H : negb _ = false |- _ => apply negb_false_iff, Z.eqb_eq in H end.
    split_and!; try done. left. split; [done|]. congruence.
  - destruct pc; try done; by_caller; try done; apply bool_decide_eq_true in Hpc; subst;
      step_inv Hn; try done.
    all: destruct (IH ltac:(simpl; by rewrite ?bool_decide_eq_true) v eq_refl)
           as (Hrs & Hws & Hrv & Hld & Htr); simpl in *.
    all: split_and!; try done.
    all: try (destruct Htr as [[-> ->] | [tr0 ->]];
              [by exists [] | eexists (_ :: tr0); reflexivity]).
    all: try (right; destruct Htr as [tr0 ->]; eexists (_ :: tr0); reflexivity).
    all: try (destruct Htr as [tr0 ->]; eexists (_ :: tr0); reflexivity).
Qed.

(** X5: when [tx_read(a)] of an address that is not in the write set
    returns [v], it has appended exactly the entry [{a, v}] to the read
    set, left the write set alone, and [rv] is the clock value of its last
    check; it performed loads only, the last two being the load of
    [accts[a]] that gave [v] and the load of the clock that matched
    [rv]. *)
Theorem tx_read_result env s t a tr s' t' v :
  write_set t !! a = None →
  exec env s t (entry (OpRead a)) tr s' t' (RetVal v) →
  read_set t' = read_set t ++ [mkAcct a v]
  ∧ write_set t' = write_set t
  ∧ rv t' = global_clock s'
  ∧ forallb is_load tr = true
  ∧ ∃ tr0, tr = tr0 ++ [LoadCell a v; LoadClock (rv t')].
Proof.
  intros Hw Hx.
  inversion Hx as [? ? ? ? Hn|? ? ? ? ? ? ? ? ? Hn Henv Hx1]; subst; simpl in *;
    rewrite Hw in *; simpl in *; simplify_eq.
  eapply (exec_reading env a) in Hx1; [|simpl; by rewrite bool_decide_eq_true|done].
  done.
Qed.

Lemma tx_read_result_witness :
  ∃ tr0, [LoadCell 0 1000; LoadClock 2; LoadClock 2; LoadCell 0 1000; LoadClock 2;
          LoadCell 0 1000; LoadClock 2]
         = tr0 ++ [LoadCell 0 1000; LoadClock (rv (mkTx [mkAcct 0 1000; mkAcct 0 1000] ∅ 2))].
Proof.
  refine (proj2 (proj2 (proj2 (proj2
    (tx_read_result alone (mkShared [mkAcct 0 1000] 2) (mkTx [mkAcct 0 1000] ∅ 0) 0 _
       (mkShared [mkAcct 0 1000] 2) (mkTx [mkAcct 0 1000; mkAcct 0 1000] ∅ 2) 1000 _ _))))).
  - reflexivity.
  - apply (run_exec 8). reflexivity.
Defined.

(** X6: run alone with [rv] equal to the clock, [tx_read(a)] of a valid
    address that is not in the write set returns the value of the cell
    after one load of the cell and one of the clock, without validating,
    and appends the entry to the read set. *)
Theorem tx_read_fresh n s t a c :
  write_set t !! a = None → cell (accts s) a = Some c → rv t = global_clock s →
  run (S (S (S n))) s t (entry (OpRead a))
  = Done s (mkTx (read_set t ++ [mkAcct a (value c)]) (write_set t) (rv t))
      (RetVal (value c)) [LoadCell a (value c); LoadClock (global_clock s)].
Proof. apply read_alone. Qed.

Lemma tx_read_fresh_witness :
  run 3 (mkShared [mkAcct 0 1000; mkAcct 1 70] 6) (mkTx [] ∅ 6) (entry (OpRead 1))
  = Done (mkShared [mkAcct 0 1000; mkAcct 1 70] 6) (mkTx [mkAcct 1 70] ∅ 6)
      (RetVal 70) [LoadCell 1 70; LoadClock 6].
Proof.
  refine (tx_read_fresh 0 (mkShared [mkAcct 0 1000; mkAcct 1 70] 6) (mkTx [] ∅ 6) 1
            (mkAcct 1 70) _ _ _); reflexivity.
Defined.

(** ** [tx_validate] *)

Lemma exec_validating env s t pc tr s' t' o :
  exec env s t pc tr s' t' o → validating pc = true →
  (∃ pre, read_set t = pre ++ scan_rest pc) →
  t' = t ∧ forallb is_load tr = true
  ∧ (∀ v, o = RetVal v → to_uint v = global_clock s')
  ∧ (o = Abort →
       ∃ e c, e ∈ read_set t ∧ cell (accts s') (addr e) = Some c ∧ value e ≠ value c).
Proof.
  induction 1 as [s t pc o Hn | s t pc pc' s1 tr s2 t2 o Hn Henv Hx IH]; intros Hpc [pre Hpre].
  - destruct pc; try done; by_caller; try done; step_inv Hn.
    + split_and!; try done. intros _. eexists _, _. split_and!; [|done|].
      * rewrite Hpre. apply elem_of_app. right. apply elem_of_cons. by left.
      * match goal with H : negb _ = true |- _ => by apply negb_true_iff, Z.eqb_neq in H end.
    + by split_and!.
    + split_and!; try done. intros v [= <-]. by apply Z.eqb_eq.
  - destruct pc; try done; by_caller; try done; step_inv Hn.
    all: destruct IH as (-> & Hld & Hret & Hab); [done| |by split_and!].
    all: try (by exists pre).
    all: try (exists (read_set t); by rewrite app_nil_r).
    all: try (exists (pre ++ [a]); by rewrite <- app_assoc).
    by exists [].
Qed.

(** X7: [tx_validate] changes nothing of the transaction and only
    loads; a value it returns is even and is the clock value of its last
    check; when it aborts, some entry of the read set differs from its
    cell at that moment. *)
Theorem tx_validate_result env s t tr s' t' o :
  exec env s t (entry OpValidate) tr s' t' o →
  t' = t ∧ forallb is_load tr = true
  ∧ (∀ v, o = RetVal v → to_uint v = global_clock s' ∧ Z.even v = true)
  ∧ (o = Abort →
       ∃ e c, e ∈ read_set t ∧ cell (accts s') (addr e) = Some c ∧ value e ≠ value c).
Proof.
  intros Hx.
  destruct (exec_validating _ _ _ _ _ _ _ _ Hx eq_refl) as (Ht & Hld & Hret & Hab).
  { exists (read_set t). by rewrite app_nil_r. }
  split_and!; try done. intros v Hv. split; [by apply Hret|].
  by eapply validate_returns_even.
Qed.

Lemma tx_validate_result_witness :
  ∃ e c, e ∈ read_set (mkTx [mkAcct 0 5] ∅ 0)
       ∧ cell (accts (mkShared [mkAcct 0 6] 0)) (addr e) = Some c ∧ value e ≠ value c.
Proof.
  refine (proj2 (proj2 (proj2
    (tx_validate_result alone (mkShared [mkAcct 0 6] 0) (mkTx [mkAcct 0 5] ∅ 0)
       [LoadClock 0; LoadCell 0 6] (mkShared [mkAcct 0 6] 0) (mkTx [mkAcct 0 5] ∅ 0) Abort _))) _).
  - apply (run_exec 2). reflexivity.
  - reflexivity.
Defined.

(** X8: run alone with an even clock and a non-empty read set,
    [tx_validate] decides on the first entry alone: it returns the clock
    when that entry matches its cell and aborts when it does not,
    whatever the other entries are. *)
Theorem tx_validate_alone n s t e rest c :
  read_set t = e :: rest →
  is_uint (global_clock s) → Z.even (global_clock s) = true →
  cell (accts s) (addr e) = Some c →
  run (S (S (S n))) s t (entry OpValidate)
  = if value e =? value c
    then Done s t (RetVal (to_int (global_clock s)))
           [LoadClock (global_clock s); LoadCell (addr e) (value c);
            LoadClock (global_clock s)]
    else Done s t Abort
           [LoadClock (global_clock s); LoadCell (addr e) (value c)].
Proof.
  intros Hrs Hu Hev Hc. simpl.
  rewrite land1_even, even_to_int, Hev. simpl.
  rewrite Hrs. simpl. rewrite Hc. simpl.
  destruct (value e =? value c); simpl; [|done].
  by rewrite to_uint_to_int, (to_uint_id _ Hu), Z.eqb_refl.
Qed.

Lemma tx_validate_alone_witness :
  run 3 (mkShared [mkAcct 0 6; mkAcct 1 9] 8) (mkTx [mkAcct 1 9; mkAcct 0 5] ∅ 0)
    (entry OpValidate)
  = Done (mkShared [mkAcct 0 6; mkAcct 1 9] 8) (mkTx [mkAcct 1 9; mkAcct 0 5] ∅ 0)
      (RetVal 8) [LoadClock 8; LoadCell 1 9; LoadClock 8].
Proof.
  refine (tx_validate_alone 0 (mkShared [mkAcct 0 6; mkAcct 1 9] 8)
            (mkTx [mkAcct 1 9; mkAcct 0 5] ∅ 0) (mkAcct 1 9) [mkAcct 0 5] (mkAcct 1 9) _ _ _ _).
  - reflexivity.
  - unfold is_uint. simpl. lia.
  - reflexivity.
  - reflexivity.
Defined.

(** ** [tx_commit] with a stale start version *)

(** X9: [tx_commit] run alone with a non-empty write set and a stale
    [rv] fails its first compare-and-swap, revalidates, and then, when the
    first read-set entry matches its cell, commits: [rv] becomes the
    clock, every pair is written back and the clock advances by 2; when
    the first entry does not match it aborts with nothing written. *)
Theorem tx_commit_stale s t e rest c l :
  write_set t ≠ ∅ →
  is_uint (global_clock s) → Z.even (global_clock s) = true →
  rv t ≠ global_clock s →
  read_set t = e :: rest → cell (accts s) (addr e) = Some c →
  write_back (map_to_list (write_set t)) (accts s) = Some l →
  run (length (map_to_list (write_set t)) + 8) s t (entry OpCommit)
  = if value e =? value c
    then Done (mkShared l (to_uint (global_clock s + 2))) (set_rv t (global_clock s)) RetVoid
           ([CasClock (rv t) (to_uint (rv t + 1)) false;
             LoadClock (global_clock s); LoadCell (addr e) (value c);
             LoadClock (global_clock s);
             CasClock (global_clock s) (to_uint (global_clock s + 1)) true]
            ++ map store_event (map_to_list (write_set t))
            ++ [StoreClock (to_uint (global_clock s + 2))])
    else Done s t Abort
           [CasClock (rv t) (to_uint (rv t + 1)) false;
            LoadClock (global_clock s); LoadCell (addr e) (value c)].
Proof.
  intros Hws Hu Hev Hrv Hrs Hc Hwb.
  replace (length (map_to_list (write_set t)) + 8)%nat
    with (S (S (S (S (S (S (length (map_to_list (write_set t)) + 2))))))) by lia.
  simpl. rewrite decide_False by done. simpl.
  assert (Hne : (global_clock s =? rv t) = false) by (apply Z.eqb_neq; congruence).
  rewrite Hne. simpl.
  rewrite land1_even, even_to_int, Hev. simpl.
  rewrite Hrs. simpl. rewrite Hc. simpl.
  destruct (value e =? value c); simpl; [|done].
  rewrite to_uint_to_int, (to_uint_id _ Hu), !Z.eqb_refl. simpl.
  rewrite Z.eqb_refl. simpl.
  rewrite (write_back_run _ (set_clock s (to_uint (global_clock s + 1)))
             (set_rv t (global_clock s)) l Hwb). done.
Qed.

Lemma tx_commit_stale_witness :
  run 9 (mkShared [mkAcct 0 1000; mkAcct 1 7] 2)
    (mkTx [mkAcct 0 1000; mkAcct 1 1000] {[1 := 1050]} 0) (entry OpCommit)
  = Done (mkShared [mkAcct 0 1000; mkAcct 1 1050] 4)
      (mkTx [mkAcct 0 1000; mkAcct 1 1000] {[1 := 1050]} 2) RetVoid
      [CasClock 0 1 false; LoadClock 2; LoadCell 0 1000; LoadClock 2;
       CasClock 2 3 true; StoreCell 1 1050; StoreClock 4].
Proof.
  refine (tx_commit_stale (mkShared [mkAcct 0 1000; mkAcct 1 7] 2)
            (mkTx [mkAcct 0 1000; mkAcct 1 1000] {[1 := 1050]} 0)
            (mkAcct 0 1000) [mkAcct 1 1000] (mkAcct 0 1000)
            [mkAcct 0 1000; mkAcct 1 1050] _ _ _ _ _ _ _).
  - discriminate.
  - unfold is_uint. simpl. lia.
  - reflexivity.
  - simpl. lia.
  - reflexivity.
  - reflexivity.
  - reflexivity.
Defined.

(** ** What [tx_commit] leaves behind *)

Lemma exec_commit_sets env s t pc tr s' t' o :
  exec env s t pc tr s' t' o → phase pc ≠ Outside →
  read_set t' = read_set t ∧ write_set t' = write_set t.
Proof.
  induction 1 as [s t pc o Hn | s t pc pc' s1 tr s2 t2 o Hn Henv Hx IH]; intros Hpc.
  - destruct pc; try done; by_caller; try done; step_inv Hn; done.
  - destruct pc; try done; by_caller; try done; step_inv Hn;
      destruct IH as [Hr Hw]; done.
Qed.

Lemma exec_commit_clock env s t pc tr s' t' o :
  exec env s t pc tr s' t' o → phase pc ≠ Outside →
  returned o = true → (pc = Commit_entry → write_set t ≠ ∅) →
  global_clock s' = to_uint (rv t' + 2).
Proof.
  induction 1 as [s t pc o Hn | s t pc pc' s1 tr s2 t2 o Hn Henv Hx IH]; intros Hpc Hret Hws.
  - destruct pc; try done; by_caller; try done; step_inv Hn; try done.
    by destruct Hws.
  - destruct pc; try done; by_caller; try done; step_inv Hn; by apply IH.
Qed.

(** X10: [tx_commit] does not clear the read set or the write set,
    however it ends; and when a writing commit returns, the clock it
    leaves is [rv + 2], so the [rv] of the thread is stale until the next
    [tx_begin]. *)
Theorem tx_commit_keeps_sets env s t tr s' t' o :
  exec env s t (entry OpCommit) tr s' t' o →
  read_set t' = read_set t ∧ write_set t' = write_set t
  ∧ (returned o = true → write_set t ≠ ∅ →
       global_clock s' = to_uint (rv t' + 2)).
Proof.
  intros Hx. destruct (exec_commit_sets _ _ _ _ _ _ _ _ Hx) as [Hr Hw]; [done|].
  split_and!; try done. intros Hret Hws. by eapply exec_commit_clock.
Qed.

Lemma tx_commit_keeps_sets_witness :
  write_set (mkTx [mkAcct 0 1000; mkAcct 1 1000] {[1 := 1050]} 2)
  = write_set (mkTx [mkAcct 0 1000; mkAcct 1 1000] {[1 := 1050]} 0).
Proof.
  refine (proj1 (proj2
    (tx_commit_keeps_sets alone (mkShared [mkAcct 0 1000; mkAcct 1 7] 2)
       (mkTx [mkAcct 0 1000; mkAcct 1 1000] {[1 := 1050]} 0)
       [CasClock 0 1 false; LoadClock 2; LoadCell 0 1000; LoadClock 2;
        CasClock 2 3 true; StoreCell 1 1050; StoreClock 4]
       (mkShared [mkAcct 0 1000; mkAcct 1 1050] 4)
       (mkTx [mkAcct 0 1000; mkAcct 1 1000] {[1 := 1050]} 2) RetVoid _))).
  apply (run_exec 9). reflexivity.
Defined.

(** ** The exclusive window in a system of threads *)

Section Window.
Context {C : Type}.
Variable client : C → Act C.

Lemma window_taken_step g g' :
  system_ok g →
  (Z.odd (global_clock (shared g)) = true → window_taken g) →
  step client g g' →
  Z.odd (global_clock (shared g')) = true → window_taken g'.
Proof.
  intros Hok Hinv [i Hstep] Hodd.
  destruct (sys_step_inv _ _ _ _ Hstep) as (th & s' & th' & Hi & Hs & ->).
  pose proof Hok as (Hc & Hrv & Hw & Hu).
  destruct (thread_step_ok _ _ _ _ _ Hc (Hrv _ _ Hi) Hs) as (_ & _ & Hwc).
  assert (Hlen : (i < length (threads g))%nat) by (by eapply lookup_lt_Some).
  unfold window_change in Hwc. simpl in *.
  destruct (in_window (th_pc th')) eqn:Hwi'.
  { exists i, th'. split; [|done]. simpl. by apply list_lookup_insert_eq. }
  destruct (in_window (th_pc th)) eqn:Hwi.
  - exfalso. destruct Hwc as [_ Hclk]. rewrite Hclk in Hodd.
    destruct (Hrv _ _ Hi) as (_ & He & _).
    assert (Hev : Z.even (rv (th_tx th)) = true).
    { apply He. intros Hb. rewrite Hb in Hwi. done. }
    rewrite <- Z.negb_even, even_to_uint in Hodd.
    replace (rv (th_tx th) + 2) with (Z.succ (Z.succ (rv (th_tx th)))) in Hodd by lia.
    rewrite Z.even_succ_succ, Hev in Hodd. done.
  - rewrite Hwc in Hodd. destruct (Hinv Hodd) as (j & thj & Hj & Hwj).
    exists j, thj. split; [|done]. simpl.
    rewrite list_lookup_insert_ne; [done|]. intros ->. congruence.
Qed.

Lemma reachable_window_taken g :
  reachable client g →
  Z.odd (global_clock (shared g)) = true → window_taken g.
Proof.
  intros (g0 & Hinit & Hsteps).
  assert (Hok0 : system_ok g0) by (by apply initial_ok).
  assert (H0 : Z.odd (global_clock (shared g0)) = true → window_taken g0).
  { destruct Hinit as [-> _]. done. }
  clear Hinit. induction Hsteps as [|g1 g2 g3 Hs _ IH]; [done|].
  apply IH.
  - by eapply system_ok_step.
  - by eapply window_taken_step.
Qed.
End Window.

(** X11: in every reachable state of a system of threads at most one
    thread is between its successful compare-and-swap and its release
    store, the clock is then its [rv] plus 1, and the clock is odd exactly
    when some thread is there. *)
Theorem single_writer {C : Type} (client : C → Act C) g :
  reachable client g →
  (∀ i j thi thj, threads g !! i = Some thi → threads g !! j = Some thj →
     in_window (th_pc thi) = true → in_window (th_pc thj) = true → i = j)
  ∧ (∀ i th, threads g !! i = Some th → in_window (th_pc th) = true →
       global_clock (shared g) = rv (th_tx th) + 1)
  ∧ (Z.odd (global_clock (shared g)) = true ↔ window_taken g).
Proof.
  intros Hr. pose proof (reachable_ok _ _ Hr) as (Hc & Hrv & Hw & Hu).
  split_and!; [done | done |]. split.
  - by apply (reachable_window_taken client).
  - intros (i & th & Hi & Hwi). rewrite (Hw _ _ Hi Hwi).
    destruct (Hrv _ _ Hi) as (_ & He & _).
    replace (rv (th_tx th) + 1) with (Z.succ (rv (th_tx th))) by lia.
    rewrite Z.odd_succ. apply He. intros Hb. rewrite Hb in Hwi. done.
Qed.

Lemma single_writer_witness :
  window_taken (mkSystem (mkShared [mkAcct 0 1] 1)
    [mkThread W_commit (mkTx [] {[0 := 1]} 0) (Some Commit_release)]).
Proof.
  refine (proj1 (proj2 (proj2 (single_writer writer _ _))) _).
  - exists (writer_at 0 0 tx_init). split.
    + split; [reflexivity|]. repeat constructor.
    + apply (sys_run_rtc writer (repeat 0%nat 10)).
      exact (writer_to_release 0 0 tx_init eq_refl).
  - reflexivity.
Defined.

(** ** Who changes the accounts *)

Lemma step_outside_window s t pc :
  (∀ pending, pc ≠ Commit_wb pending) →
  accts (st_shared (tx_step s t pc)) = accts s.
Proof.
  intros Hpc. destruct pc; simpl; unfold validate_return; repeat case_match; simpl; try done.
  by destruct (Hpc ((z, z0) :: l)).
Qed.

Lemma step_keeps_addr s t pc :
  addr <$> accts (st_shared (tx_step s t pc)) = addr <$> accts s.
Proof.
  destruct pc; simpl; unfold validate_return; repeat case_match; simpl; try done.
  match goal with H : store_value _ _ _ = Some _ |- _ => unfold store_value in H end.
  repeat case_match; simplify_eq.
  unfold cell in *. case_match; [|done].
  rewrite list_fmap_insert. simpl. apply list_insert_id.
  match goal with H : _ !! _ = Some _ |- _ => by rewrite list_lookup_fmap, H end.
Qed.

Lemma thread_step_shared {C : Type} (client : C → Act C) s th s' th' :
  thread_step client s th = Some (s', th') →
  s' = s ∨ ∃ pc, th_pc th = Some pc ∧ s' = st_shared (tx_step s (th_tx th) pc).
Proof.
  unfold thread_step. destruct (th_pc th) as [pc|].
  - intros Hs. right. exists pc. split; [done|].
    destruct (st_next _) as [pc'|o]; [by simplify_eq|].
    destruct o; try done; destruct (client _); by simplify_eq.
  - intros Hs. left. destruct (client _); by simplify_eq.
Qed.

(** X12: in a reachable state, a step that changes the account vector
    is a store of the write-back loop of [tx_commit], made by the thread
    that holds the odd clock; the step leaves the clock alone. *)
Theorem accounts_change_in_window {C : Type} (client : C → Act C) g i g' :
  reachable client g →
  sys_step client i g = Some g' →
  accts (shared g') ≠ accts (shared g) →
  ∃ th pending,
    threads g !! i = Some th ∧ th_pc th = Some (Commit_wb pending)
    ∧ global_clock (shared g) = rv (th_tx th) + 1
    ∧ Z.odd (global_clock (shared g)) = true
    ∧ global_clock (shared g') = global_clock (shared g).
Proof.
  intros Hr Hstep Hch.
  pose proof (reachable_ok _ _ Hr) as (Hc & Hrv & Hw & Hu).
  destruct (sys_step_inv _ _ _ _ Hstep) as (th & s' & th' & Hi & Hs & ->). simpl in *.
  destruct (thread_step_shared _ _ _ _ _ Hs) as [-> | (pc & Hpc & ->)]; [done|].
  assert (Hwb : ∃ pending, pc = Commit_wb pending).
  { destruct pc; eauto; exfalso; apply Hch; by apply step_outside_window. }
  destruct Hwb as [pending ->]. exists th, pending.
  assert (Hwi : in_window (th_pc th) = true) by (by rewrite Hpc).
  pose proof (Hw _ _ Hi Hwi) as Hclk.
  split_and!; try done.
  - rewrite Hclk. destruct (Hrv _ _ Hi) as (_ & He & _).
    replace (rv (th_tx th) + 1) with (Z.succ (rv (th_tx th))) by lia.
    rewrite Z.odd_succ. apply He. by rewrite Hpc.
  - simpl. by repeat case_match.
Qed.

Lemma accounts_change_in_window_witness :
  ∃ th pending,
    [mkThread W_commit (mkTx [] {[0 := 1]} 0) (Some (Commit_wb [(0, 1)]))] !! 0%nat = Some th
    ∧ th_pc th = Some (Commit_wb pending)
    ∧ 1 = rv (th_tx th) + 1 ∧ Z.odd 1 = true ∧ 1 = 1.
Proof.
  refine (accounts_change_in_window writer
            (mkSystem (mkShared [mkAcct 0 0] 1)
               [mkThread W_commit (mkTx [] {[0 := 1]} 0) (Some (Commit_wb [(0, 1)]))])
            0%nat
            (mkSystem (mkShared [mkAcct 0 1] 1)
               [mkThread W_commit (mkTx [] {[0 := 1]} 0) (Some (Commit_wb []))]) _ _ _).
  - exists (writer_at 0 0 tx_init). split.
    + split; [reflexivity|]. repeat constructor.
    + apply (sys_run_rtc writer (repeat 0%nat 8)). reflexivity.
  - reflexivity.
  - discriminate.
Defined.

(** X13: no execution changes the number of accounts or the [addr]
    field of any account. *)
Theorem accounts_keep_shape {C : Type} (client : C → Act C) g g' :
  rtc (step client) g g' →
  addr <$> accts (shared g') = addr <$> accts (shared g)
  ∧ length (accts (shared g')) = length (accts (shared g)).
Proof.
  intros Hsteps.
  assert (Haddr : addr <$> accts (shared g') = addr <$> accts (shared g)).
  { induction Hsteps as [|g1 g2 g3 [i Hs] _ IH]; [done|]. rewrite IH.
    destruct (sys_step_inv _ _ _ _ Hs) as (th & s' & th' & Hi & Hts & ->). simpl.
    destruct (thread_step_shared _ _ _ _ _ Hts) as [-> | (pc & Hpc & ->)]; [done|].
    apply step_keeps_addr. }
  split; [done|]. by rewrite <- (length_fmap addr), Haddr, length_fmap.
Qed.

Lemma accounts_keep_shape_witness :
  length (accts (shared (mkSystem (mkShared [mkAcct 0 1] 1)
     [mkThread W_commit (mkTx [] {[0 := 1]} 0) (Some Commit_release)])))
  = length (accts (shared (writer_at 0 0 tx_init))).
Proof.
  refine (proj2 (accounts_keep_shape writer (writer_at 0 0 tx_init) _ _)).
  apply (sys_run_rtc writer (repeat 0%nat 10)).
  exact (writer_to_release 0 0 tx_init eq_refl).
Defined.

(** ** Indexing inside the vector *)

Lemma cell_in_range l a : in_range (length l) a → ∃ c, cell l a = Some c.
Proof.
  unfold in_range, cell. intros Ha.
  assert ((0 <=? a) = true) as -> by (apply Z.leb_le; lia).
  apply lookup_lt_is_Some. lia.
Qed.

Lemma store_value_in_range l a v :
  in_range (length l) a → ∃ l', store_value a v l = Some l' ∧ length l' = length l.
Proof.
  intros [c Hc]%cell_in_range. unfold store_value. rewrite Hc.
  eexists. split; [done|]. apply length_insert.
Qed.

Lemma emplace_in_range n a v ws :
  in_range n a → map_Forall (λ a _, in_range n a) ws →
  map_Forall (λ a _, in_range n a) (emplace a v ws).
Proof.
  intros Ha Hws. unfold emplace. destruct (ws !! a); [done|].
  by apply map_Forall_insert_2.
Qed.

Lemma step_in_range n s t pc :
  length (accts s) = n → tx_in_range n t → pc_in_range n pc →
  st_next (tx_step s t pc) ≠ Finish Fault
  ∧ length (accts (st_shared (tx_step s t pc))) = n
  ∧ tx_in_range n (st_tx (tx_step s t pc))
  ∧ match st_next (tx_step s t pc) with
    | Goto pc' => pc_in_range n pc'
    | Finish _ => True
    end.
Proof.
  intros Hlen [Hrs Hws] Hpc. subst n. unfold tx_in_range.
  destruct pc; simpl in *.
  - split_and!; try done; apply map_Forall_empty.
  - by destruct (negb _).
  - split_and!; try done; by apply emplace_in_range.
  - by destruct (write_set t !! a).
  - destruct (cell_in_range _ _ Hpc) as [c ->]. done.
  - destruct (negb _); simpl; split_and!; try done.
    apply Forall_app. split; [done|]. by constructor.
  - destruct (cell_in_range _ _ Hpc) as [c ->]. done.
  - destruct (negb _); simpl; split_and!; try done.
  - destruct Hpc as [Hk Hit]. destruct it as [|e rest]; simpl; [done|].
    apply Forall_cons in Hit as [He Hrest].
    destruct (cell_in_range _ _ He) as [c ->]. simpl.
    by destruct (negb _).
  - destruct Hpc as [Hk Hit]. destruct (to_uint temp =? global_clock s); simpl; [|done].
    by destruct k.
  - by destruct (decide _).
  - destruct (global_clock s =? rv t); simpl; split_and!; try done.
    apply map_Forall_to_list in Hws. eapply Forall_impl; [exact Hws|]. by intros [a v].
  - destruct pending as [|[a v] rest]; simpl; [done|].
    apply Forall_cons in Hpc as [Ha Hrest].
    destruct (store_value_in_range (accts s) a v Ha) as (l' & -> & Hl'). simpl.
    rewrite Hl'. done.
  - done.
Qed.

Section InRange.
Context {C : Type}.
Variable client : C → Act C.
Variable I : C → Prop.
Variable n : nat.
Hypothesis Hclient : client_in_range client I n.

Lemma thread_step_in_range s th :
  length (accts s) = n → thread_in_range client I n th →
  match thread_step client s th with
  | Some (s', th') => length (accts s') = n ∧ thread_in_range client I n th'
  | None => th_pc th = None ∧ client (th_client th) = Exit
  end.
Proof.
  intros Hlen (HI & Htx & Hpc). unfold thread_step.
  pose proof (Hclient _ HI) as Hc.
  destruct (th_pc th) as [pc|] eqn:Hth.
  - destruct Hpc as (Hpc & op & k & Hcall). rewrite Hcall in *.
    destruct (step_in_range n s (th_tx th) pc Hlen Htx Hpc) as (Hnf & Hlen' & Htx' & Hnext).
    destruct (st_next _) as [pc'|o].
    + split; [done|]. split_and!; try done. simpl. split; [done|]. eauto.
    + destruct Hc as [_ Hk].
      destruct o; try done; split; try done; split_and!; simpl; auto.
  - destruct (client (th_client th)) as [c'|op k|] eqn:Hcl; [| |done].
    + split; [done|]. by split_and!.
    + split; [done|]. split_and!; try done. simpl. split; [|by eauto].
      destruct Hc as [Hop _]. by destruct op.
Qed.

Lemma system_in_range g g' :
  length (accts (shared g)) = n →
  (∀ i th, threads g !! i = Some th → thread_in_range client I n th) →
  rtc (step client) g g' →
  length (accts (shared g')) = n
  ∧ ∀ i th, threads g' !! i = Some th → thread_in_range client I n th.
Proof.
  intros Hlen Hth Hsteps. induction Hsteps as [|g1 g2 g3 [i Hs] _ IH]; [done|].
  destruct (sys_step_inv _ _ _ _ Hs) as (th & s' & th' & Hi & Hts & ->).
  pose proof (thread_step_in_range (shared g1) th Hlen (Hth _ _ Hi)) as Hstep.
  rewrite Hts in Hstep. destruct Hstep as [Hlen' Hth'].
  apply IH; [done|]. simpl.
  intros j thj [(-> & -> & _)|[? ?]]%list_lookup_insert_Some; [done|]. by eapply Hth.
Qed.
End InRange.

Lemma in_range_progress {C : Type} (client : C → Act C) (I : C → Prop) g0 g i th :
  client_in_range client I (length (accts (shared g0))) →
  Forall (λ th, I (th_client th) ∧ th_tx th = tx_init ∧ th_pc th = None) (threads g0) →
  rtc (step client) g0 g →
  threads g !! i = Some th →
  is_Some (thread_step client (shared g) th)
  ∨ (th_pc th = None ∧ client (th_client th) = Exit).
Proof.
  intros Hclient Hinit Hsteps Hi. rewrite Forall_lookup in Hinit.
  destruct (system_in_range client I _ Hclient g0 g eq_refl) as [Hlen Hth]; [|done|].
  { intros j thj (HI & Ht & Hp)%Hinit. unfold thread_in_range. rewrite Ht, Hp.
    split_and!; try done; split; first [by constructor | apply map_Forall_empty]. }
  pose proof (thread_step_in_range client I _ Hclient (shared g) th Hlen (Hth _ _ Hi)) as Hs.
  destruct (thread_step client (shared g) th) as [[s' th']|]; [left; eauto | by right].
Qed.

(** X14: when the client of every thread only passes addresses inside
    the account vector, no step has undefined behaviour: a thread can
    always take its next step unless its client has finished. *)
Theorem calls_in_range_are_defined {C : Type} (client : C → Act C) (I : C → Prop) g0 g i th :
  client_in_range client I (length (accts (shared g0))) →
  Forall (λ th, I (th_client th) ∧ th_tx th = tx_init ∧ th_pc th = None) (threads g0) →
  rtc (step client) g0 g →
  threads g !! i = Some th →
  is_Some (thread_step client (shared g) th)
  ∨ (th_pc th = None ∧ client (th_client th) = Exit).
Proof. apply in_range_progress. Qed.

Lemma calls_in_range_are_defined_witness :
  is_Some (thread_step writer (mkShared [mkAcct 0 0] 1)
             (mkThread W_commit (mkTx [] {[0 := 1]} 0) (Some (Commit_wb [(0, 1)]))))
  ∨ (th_pc (mkThread W_commit (mkTx [] {[0 := 1]} 0) (Some (Commit_wb [(0, 1)]))) = None
     ∧ writer (th_client (mkThread W_commit (mkTx [] {[0 := 1]} 0) (Some (Commit_wb [(0, 1)]))))
       = Exit).
Proof.
  refine (calls_in_range_are_defined writer (λ _, True) (writer_at 0 0 tx_init)
            (mkSystem (mkShared [mkAcct 0 0] 1)
               [mkThread W_commit (mkTx [] {[0 := 1]} 0) (Some (Commit_wb [(0, 1)]))])
            0%nat _ _ _ _ _).
  - intros [] _; simpl; split; try done; unfold in_range; simpl; lia.
  - repeat constructor.
  - apply (sys_run_rtc writer (repeat 0%nat 8)). reflexivity.
  - reflexivity.
Defined.

(** ** [main] and [th_run] *)

Lemma totalMoney_constant b l :
  Forall (λ e, value e = b) l → totalMoney l = Z.of_nat (length l) * b.
Proof.
  induction 1 as [|e l He _ IH]; [done|].
  cbn [totalMoney foldr length]. fold (totalMoney l). rewrite IH, He. lia.
Qed.

Lemma main_accts_length : length main_accts = Z.to_nat NUM_ACCTS.
Proof. unfold main_accts. by rewrite length_fmap, length_seqZ. Qed.

Lemma main_accts_cell a :
  cell main_accts a
  = if (0 <=? a) && (a <? NUM_ACCTS) then Some (mkAcct a INIT_BALANCE) else None.
Proof.
  unfold cell, main_accts. destruct (0 <=? a) eqn:Ha; [|done]. apply Z.leb_le in Ha.
  rewrite list_lookup_fmap. simpl andb. destruct (a <? NUM_ACCTS) eqn:Hb.
  - apply Z.ltb_lt in Hb. rewrite (lookup_seqZ_lt 0 NUM_ACCTS (Z.to_nat a)) by lia.
    simpl. f_equal. f_equal. lia.
  - apply Z.ltb_ge in Hb. rewrite (lookup_seqZ_ge 0 NUM_ACCTS (Z.to_nat a)) by lia. done.
Qed.

Lemma to_long_id bits z : 32 ≤ bits → - 2 ^ 31 ≤ z < 2 ^ 31 → to_long bits z = z.
Proof.
  intros Hb Hz. unfold to_long.
  assert (H1 : 2 ^ 31 ≤ 2 ^ (bits - 1)) by (apply Z.pow_le_mono_r; lia).
  assert (H2 : 2 ^ bits = 2 * 2 ^ (bits - 1)).
  { rewrite <- Z.pow_succ_r by lia. f_equal. lia. }
  rewrite H2. rewrite Z.mod_small; lia.
Qed.

Lemma init_accts_spec fuel : ∀ i l,
  0 ≤ i ≤ NUM_ACCTS →
  init_accts fuel i l
  = if NUM_ACCTS - i <? Z.of_nat fuel
    then Ended (l ++ ((λ i, mkAcct i INIT_BALANCE) <$> seqZ i (NUM_ACCTS - i)))
    else NoFuel.
Proof.
  induction fuel as [|n IH]; intros i l Hi.
  - cbn [init_accts]. destruct (Z.ltb_spec (NUM_ACCTS - i) (Z.of_nat 0)); [lia | reflexivity].
  - cbn [init_accts]. destruct (Z.ltb_spec i NUM_ACCTS) as [Hlt|Hge].
    + assert (to_int (i + 1) = i + 1) as -> by (unfold NUM_ACCTS in *; wrap_arith).
      rewrite IH by lia.
      destruct (Z.ltb_spec (NUM_ACCTS - (i + 1)) (Z.of_nat n)),
               (Z.ltb_spec (NUM_ACCTS - i) (Z.of_nat (S n))); try lia; [|reflexivity].
      f_equal. rewrite <- app_assoc. f_equal.
      rewrite (seqZ_cons i (NUM_ACCTS - i)) by lia. rewrite fmap_cons.
      cbn [app]. f_equal. f_equal. f_equal; lia.
    + assert (i = NUM_ACCTS) as -> by lia.
      destruct (Z.ltb_spec (NUM_ACCTS - NUM_ACCTS) (Z.of_nat (S n))); [|lia].
      rewrite Z.sub_diag. cbn [seqZ]. rewrite app_nil_r. reflexivity.
Qed.

Lemma sum_accts_spec bits fuel : 32 ≤ bits → ∀ i total,
  0 ≤ i ≤ NUM_ACCTS → total = i * INIT_BALANCE →
  sum_accts bits fuel main_accts i total
  = if NUM_ACCTS - i <? Z.of_nat fuel then Ended (NUM_ACCTS * INIT_BALANCE) else NoFuel.
Proof.
  intros Hb. induction fuel as [|n IH]; intros i total Hi Ht.
  - cbn [sum_accts]. destruct (Z.ltb_spec (NUM_ACCTS - i) (Z.of_nat 0)); [lia | reflexivity].
  - cbn [sum_accts]. destruct (Z.ltb_spec i NUM_ACCTS) as [Hlt|Hge].
    + rewrite main_accts_cell.
      assert ((0 <=? i) && (i <? NUM_ACCTS) = true) as ->.
      { apply andb_true_iff. split; [apply Z.leb_le | apply Z.ltb_lt]; lia. }
      cbn [value].
      assert (to_int (i + 1) = i + 1) as -> by (unfold NUM_ACCTS in *; wrap_arith).
      rewrite to_long_id; [|done|unfold NUM_ACCTS, INIT_BALANCE in *; lia].
      rewrite IH by (unfold INIT_BALANCE in *; lia).
      destruct (Z.ltb_spec (NUM_ACCTS - (i + 1)) (Z.of_nat n)),
               (Z.ltb_spec (NUM_ACCTS - i) (Z.of_nat (S n))); try lia; reflexivity.
    + assert (i = NUM_ACCTS) as -> by lia.
      destruct (Z.ltb_spec (NUM_ACCTS - NUM_ACCTS) (Z.of_nat (S n))); [|lia].
      by rewrite Ht.
Qed.

Lemma create_threads_spec bits fuel numThreads :
  32 ≤ bits → 0 ≤ numThreads ≤ 300 → ∀ i ths,
  0 ≤ i ≤ numThreads →
  create_threads bits fuel numThreads i (i + 1) ths
  = if numThreads - i <? Z.of_nat fuel
    then Ended (ths ++ (th_start <$> seqZ (i + 1) (numThreads - i)))
    else NoFuel.
Proof.
  intros Hb Hn. induction fuel as [|n IH]; intros i ths Hi.
  - cbn [create_threads]. destruct (Z.ltb_spec (numThreads - i) (Z.of_nat 0)); [lia | reflexivity].
  - cbn [create_threads].
    assert (to_uint i = i) as -> by wrap_arith.
    destruct (Z.ltb_spec i numThreads) as [Hlt|Hge].
    + assert ((0 <=? i + 1 - 1) && (i + 1 - 1 <? 300) = true) as ->.
      { apply andb_true_iff. split; [apply Z.leb_le | apply Z.ltb_lt]; lia. }
      assert (to_int (i + 1) = i + 1) as -> by wrap_arith.
      rewrite to_long_id; [|done|lia].
      rewrite IH by lia.
      destruct (Z.ltb_spec (numThreads - (i + 1)) (Z.of_nat n)),
               (Z.ltb_spec (numThreads - i) (Z.of_nat (S n))); try lia; [|reflexivity].
      f_equal. rewrite <- app_assoc. f_equal.
      rewrite (seqZ_cons (i + 1) (numThreads - i)) by lia. rewrite fmap_cons.
      cbn [app]. f_equal. f_equal. f_equal; lia.
    + assert (i = numThreads) as -> by lia.
      destruct (Z.ltb_spec (numThreads - numThreads) (Z.of_nat (S n))); [|lia].
      rewrite Z.sub_diag. cbn [seqZ]. rewrite app_nil_r. reflexivity.
Qed.

Lemma main_spec bits fuel argc arg :
  32 ≤ bits →
  main bits fuel argc arg
  = if (argc =? 2) && ((to_uint arg =? 1) || (to_uint arg =? 2) || (to_uint arg =? 4))
    then if NUM_ACCTS <? Z.of_nat fuel
         then Ended (Started 1000000000 (main_start (to_uint arg)))
         else NoFuel
    else Ended Exits.
Proof.
  intros Hb. unfold main.
  destruct (argc =? 2); [|reflexivity]. cbn [negb andb].
  destruct (Z.eqb_spec (to_uint arg) 1) as [H1|H1];
    [|destruct (Z.eqb_spec (to_uint arg) 2) as [H2|H2];
      [|destruct (Z.eqb_spec (to_uint arg) 4) as [H4|H4]; [|reflexivity]]];
    cbn [negb andb orb].
  all: rewrite (init_accts_spec fuel 0 []) by (unfold NUM_ACCTS; lia).
  all: rewrite Z.sub_0_r; destruct (Z.ltb_spec NUM_ACCTS (Z.of_nat fuel)) as [Hf|Hf];
    [|reflexivity].
  all: cbn [app]; fold main_accts.
  all: rewrite (sum_accts_spec bits fuel Hb 0 0) by (unfold NUM_ACCTS; lia).
  all: rewrite Z.sub_0_r; destruct (Z.ltb_spec NUM_ACCTS (Z.of_nat fuel)); [|lia].
  all: rewrite (create_threads_spec bits fuel (to_uint arg) Hb) by lia.
  all: rewrite Z.sub_0_r;
    destruct (Z.ltb_spec (to_uint arg) (Z.of_nat fuel)); [|unfold NUM_ACCTS in *; lia].
  all: cbn [app]; unfold main_start; f_equal; f_equal; f_equal.
  all: rewrite (seqZ_cons 0 (to_uint arg + 1)) by lia; rewrite fmap_cons.
  all: f_equal; f_equal; f_equal; lia.
Qed.

Lemma main_start_initial n : initial (main_start n).
Proof.
  split; [reflexivity|]. unfold main_start. cbn [threads].
  apply Forall_fmap, Forall_true. intros id. split; reflexivity.
Qed.

Lemma main_accts_total : totalMoney main_accts = 1000000000.
Proof.
  rewrite (totalMoney_constant INIT_BALANCE).
  - rewrite main_accts_length, Z2Nat.id; [reflexivity | discriminate].
  - unfold main_accts. apply Forall_fmap, Forall_true. intros a. reflexivity.
Qed.

(** X15: [main], whatever the width of [long] from 32 bits on and given
    fuel for more than [NUM_ACCTS] iterations of a loop: called with another
    number of arguments than one, or with an argument that [atoi] does not
    read as 1, 2 or 4, it leaves through [exit(0)]; otherwise its loops
    end, [totalMoneyBefore] is 1 000 000 000, the clock is 0, [accts[a]] is
    [{a, INIT_BALANCE}] for [0 <= a < NUM_ACCTS] and outside the vector
    elsewhere, and the threads are [th_run(0)], ..., [th_run(numThreads)],
    all fresh. *)
Theorem main_initial_state bits fuel argc arg :
  32 ≤ bits → NUM_ACCTS < Z.of_nat fuel →
  (argc ≠ 2 ∨ (to_uint arg ≠ 1 ∧ to_uint arg ≠ 2 ∧ to_uint arg ≠ 4) →
     main bits fuel argc arg = Ended Exits)
  ∧ (argc = 2 → to_uint arg = 1 ∨ to_uint arg = 2 ∨ to_uint arg = 4 →
       ∃ g, main bits fuel argc arg = Ended (Started 1000000000 g)
         ∧ global_clock (shared g) = 0
         ∧ (∀ a, cell (accts (shared g)) a
                 = if (0 <=? a) && (a <? NUM_ACCTS)
                   then Some (mkAcct a INIT_BALANCE) else None)
         ∧ Z.of_nat (length (accts (shared g))) = NUM_ACCTS
         ∧ totalMoney (accts (shared g)) = 1000000000
         ∧ threads g = th_start <$> seqZ 0 (to_uint arg + 1)
         ∧ initial g).
Proof.
  intros Hb Hf. rewrite (main_spec bits fuel argc arg Hb).
  apply Z.ltb_lt in Hf. rewrite Hf. clear Hf. split.
  - intros [Hc | (H1 & H2 & H4)].
    + apply Z.eqb_neq in Hc. rewrite Hc. reflexivity.
    + apply Z.eqb_neq in H1, H2, H4. rewrite H1, H2, H4.
      rewrite andb_false_r. reflexivity.
  - intros -> Harg.
    assert ((to_uint arg =? 1) || (to_uint arg =? 2) || (to_uint arg =? 4) = true) as ->.
    { destruct Harg as [-> | [-> | ->]]; reflexivity. }
    cbn [Z.eqb Pos.eqb andb].
    exists (main_start (to_uint arg)). split; [reflexivity|].
    unfold main_start. cbn [shared threads accts global_clock].
    split_and!.
    + reflexivity.
    + apply main_accts_cell.
    + rewrite main_accts_length. apply Z2Nat.id. discriminate.
    + apply main_accts_total.
    + reflexivity.
    + apply main_start_initial.
Qed.

Lemma main_initial_state_witness :
  ∃ g, main 64 (Z.to_nat 1000001) 2 4 = Ended (Started 1000000000 g)
    ∧ cell (accts (shared g)) 999999 = Some (mkAcct 999999 1000)
    ∧ totalMoney (accts (shared g)) = 1000000000
    ∧ length (threads g) = 5%nat.
Proof.
  assert (H1 : 32 ≤ 64) by lia.
  assert (H2 : NUM_ACCTS < Z.of_nat (Z.to_nat 1000001)).
  { rewrite Z2Nat.id; [reflexivity | discriminate]. }
  destruct (proj2 (main_initial_state 64 (Z.to_nat 1000001) 2 4 H1 H2) eq_refl)
    as (g & Hm & _ & Hc & _ & Ht & Hth & _).
  { right. right. reflexivity. }
  exists g. split; [exact Hm|]. split; [|split; [exact Ht|]].
  - rewrite Hc. reflexivity.
  - rewrite Hth. reflexivity.
Defined.

Lemma th_run_in_range rand numThreads :
  client_in_range (th_run rand numThreads) picks_in_range (Z.to_nat NUM_ACCTS).
Proof.
  assert (Hn : Z.of_nat (Z.to_nat NUM_ACCTS) = NUM_ACCTS) by (by apply Z2Nat.id).
  assert (Hpos : 0 < NUM_ACCTS) by done.
  intros d [H1 H2]. unfold th_run, picks_in_range, op_in_range, in_range in *.
  rewrite Hn. clear Hn.
  destruct (d_pc d); cbn [at_pc r1 r2]; try done.
  - split; [done|]. intros o. destruct o; cbn [resume catch at_pc r1 r2]; try done; lia.
  - destruct (r1 d =? r2 d); [|done].
    destruct (rand (tid d)) as [seed1 x]. destruct (rand seed1) as [seed2 y].
    cbn [r1 r2]. split; apply Z.mod_pos_bound; done.
  - split; [done|]. intros o. destruct o; cbn [resume catch at_pc r1 r2]; done.
  - split; [done|]. intros o. destruct o; cbn [resume catch at_pc r1 r2]; done.
  - split; [done|]. intros o. destruct o; cbn [resume catch at_pc r1 r2]; done.
  - split; [done|]. intros o. destruct o; cbn [resume catch at_pc r1 r2]; done.
  - split; [done|]. intros o. destruct o; cbn [resume catch at_pc r1 r2]; done.
Qed.

Lemma main_accts_unfold :
  main_accts
  = mkAcct 0 INIT_BALANCE :: mkAcct 1 INIT_BALANCE
    :: ((λ i, mkAcct i INIT_BALANCE) <$> seqZ 2 (NUM_ACCTS - 2)).
Proof.
  unfold main_accts.
  rewrite (seqZ_cons 0 NUM_ACCTS) by reflexivity. rewrite fmap_cons.
  rewrite (seqZ_cons (Z.succ 0) (Z.pred NUM_ACCTS)) by reflexivity. rewrite fmap_cons.
  reflexivity.
Qed.

(** The first thread of [main] run on its own up to the second store of
    its first commit, whatever the accounts from the third on. *)
Lemma th_run_to_store (rest : list Acct) :
  sys_run (th_run (λ seed, (seed + 1, seed mod 2 ^ 31)) 1) (repeat 0%nat 124)
    (mkSystem (mkShared (mkAcct 0 INIT_BALANCE :: mkAcct 1 INIT_BALANCE :: rest) 0)
       [th_start 0; th_start 1])
  = Some (mkSystem (mkShared (mkAcct 0 1000 :: mkAcct 1 1050 :: rest) 1)
            [mkThread (mkDriver D_commit 2 0 10 0 1 950 1050)
               (mkTx [mkAcct 0 1000; mkAcct 1 1000] {[0 := 950; 1 := 1050]} 0)
               (Some (Commit_wb [(0, 950)]));
             th_start 1]).
Proof. vm_compute. reflexivity. Qed.

(** X16: let [rand_r_32], whose header is not among the sources, return
    numbers from 0 to 2^31 - 1 only.  Then the remainder
    [rand_r_32(&tid) % NUM_ACCTS] is the same number whether the result
    is an [int] or an [unsigned int], and [th_run] started by [main] never
    indexes the account vector outside its bounds: in every state
    reached, each thread can take its next step, or has left [th_run]. *)
Theorem th_run_stays_in_bounds rand bits fuel argc arg total g0 g i th :
  32 ≤ bits →
  (∀ seed, 0 ≤ (rand seed).2 < 2 ^ 31) →
  main bits fuel argc arg = Ended (Started total g0) →
  rtc (step (th_run rand (to_uint arg))) g0 g →
  threads g !! i = Some th →
  (∀ seed, to_uint (rand seed).2 mod NUM_ACCTS = Z.rem (rand seed).2 NUM_ACCTS)
  ∧ (is_Some (thread_step (th_run rand (to_uint arg)) (shared g) th)
     ∨ (th_pc th = None ∧ d_pc (th_client th) = D_exit)).
Proof.
  intros Hb Hrand Hmain Hsteps Hi. split.
  { intros seed. specialize (Hrand seed).
    rewrite to_uint_id by (unfold is_uint; lia).
    symmetry. apply Z.rem_mod_nonneg; [lia | reflexivity]. }
  assert (Hg0 : g0 = main_start (to_uint arg)).
  { rewrite (main_spec bits fuel argc arg Hb) in Hmain.
    destruct ((argc =? 2) && _); [|discriminate].
    destruct (NUM_ACCTS <? Z.of_nat fuel); [|discriminate].
    injection Hmain as _ Hg. symmetry. exact Hg. }
  subst g0. set (numThreads := to_uint arg) in *. clearbody numThreads.
  assert (Hclient : client_in_range (th_run rand numThreads) picks_in_range
                      (length (accts (shared (main_start numThreads))))).
  { unfold main_start. cbn [shared accts]. rewrite main_accts_length.
    apply th_run_in_range. }
  assert (Hinit : Forall (λ th, picks_in_range (th_client th)
                                ∧ th_tx th = tx_init ∧ th_pc th = None)
                    (threads (main_start numThreads))).
  { unfold main_start. cbn [threads]. apply Forall_fmap, Forall_true.
    intros id. unfold picks_in_range. cbn. split_and!; reflexivity || discriminate. }
  destruct (in_range_progress _ _ _ _ _ _ Hclient Hinit Hsteps Hi) as [Hs | [Hpc Hexit]].
  - left. exact Hs.
  - right. split; [exact Hpc|]. clear -Hexit. unfold th_run in Hexit.
    destruct (d_pc (th_client th)); try discriminate; try reflexivity.
    destruct (r1 _ =? r2 _); [|discriminate].
    destruct (rand _) as [seed1 x]. destruct (rand seed1). discriminate.
Qed.

Lemma th_run_stays_in_bounds_witness :
  let rand := λ seed, (seed + 1, seed mod 2 ^ 31) in
  ∃ g0 g th,
    main 64 (Z.to_nat 1000001) 2 1 = Ended (Started 1000000000 g0)
    ∧ sys_run (th_run rand 1) (repeat 0%nat 124) g0 = Some g
    ∧ threads g !! 0%nat = Some th
    ∧ th_pc th = Some (Commit_wb [(0, 950)])
    ∧ cell (accts (shared g)) 1 = Some (mkAcct 1 1050)
    ∧ (is_Some (thread_step (th_run rand 1) (shared g) th)
       ∨ (th_pc th = None ∧ d_pc (th_client th) = D_exit)).
Proof.
  intros rand.
  assert (Hmain : main 64 (Z.to_nat 1000001) 2 1
                  = Ended (Started 1000000000 (main_start 1))).
  { rewrite main_spec by lia.
    assert ((NUM_ACCTS <? Z.of_nat (Z.to_nat 1000001)) = true) as ->.
    { rewrite Z2Nat.id; [reflexivity | discriminate]. }
    reflexivity. }
  assert (Hstart : main_start 1
            = mkSystem (mkShared (mkAcct 0 INIT_BALANCE :: mkAcct 1 INIT_BALANCE
                          :: ((λ i, mkAcct i INIT_BALANCE) <$> seqZ 2 (NUM_ACCTS - 2))) 0)
                [th_start 0; th_start 1]).
  { unfold main_start. rewrite main_accts_unfold. reflexivity. }
  pose proof (th_run_to_store ((λ i, mkAcct i INIT_BALANCE) <$> seqZ 2 (NUM_ACCTS - 2)))
    as Hrun.
  rewrite <- Hstart in Hrun.
  eexists _, _, _. split; [exact Hmain|]. split; [exact Hrun|].
  split; [reflexivity|]. split; [reflexivity|]. split; [reflexivity|].
  refine (proj2 (th_run_stays_in_bounds rand 64 (Z.to_nat 1000001) 2 1 _ _ _ 0%nat _
                   _ _ Hmain _ _)).
  - lia.
  - intros seed. apply Z.mod_pos_bound. reflexivity.
  - apply (sys_run_rtc (th_run rand 1) (repeat 0%nat 124)). exact Hrun.
  - reflexivity.
Defined.

(** ** Further rounds of the loop of [th_run] *)

Lemma exec_ops_cons_inv env s t op op' ops tr s' t' o :
  exec_ops env s t (op :: op' :: ops) tr s' t' o →
  ∃ tr1 s1 t1 o1, exec env s t (entry op) tr1 s1 t1 o1
    ∧ ((returned o1 = false ∧ tr = tr1 ∧ s' = s1 ∧ t' = t1 ∧ o = o1)
       ∨ (returned o1 = true ∧ ∃ s1' tr2, env s1 s1'
            ∧ exec_ops env s1' t1 (op' :: ops) tr2 s' t' o ∧ tr = tr1 ++ tr2)).
Proof.
  intros Hx.
  inversion Hx as [| |? ? ? ? ? ? ? ? ? ? ? ? ? ? H1 Hret Henv Hrest|? ? ? ? ? ? ? ? ? H1 Hret];
    subst; eexists _, _, _, _; (split; [exact H1|]).
  - right. split; [done|]. by eexists _, _.
  - left. done.
Qed.

(** X17: once two accounts are in the write set, a further round of
    the loop of [th_run] on them ([tx_read], [tx_read], [tx_write],
    [tx_write]) changes nothing: no shared memory is accessed and the
    transaction is as before, so the new balances are dropped. *)
Theorem buffered_round_changes_nothing env s t a b x y va vb tr s' t' o :
  write_set t !! a = Some va → write_set t !! b = Some vb →
  exec_ops env s t [OpRead a; OpRead b; OpWrite a x; OpWrite b y] tr s' t' o →
  o = RetVoid ∧ tr = [] ∧ t' = t.
Proof.
  intros Ha Hb Hx.
  apply exec_ops_cons_inv in Hx as (tr1 & s1 & t1 & o1 & H1 & Hx).
  apply (exec_read_hit _ _ _ _ _ _ _ _ _ Ha) in H1 as (-> & -> & -> & ->).
  destruct Hx as [[? _] | (_ & s1' & tr2 & _ & Hx & ->)]; [done|].
  apply exec_ops_cons_inv in Hx as (tr1 & s2 & t2 & o2 & H2 & Hx).
  apply (exec_read_hit _ _ _ _ _ _ _ _ _ Hb) in H2 as (-> & -> & -> & ->).
  destruct Hx as [[? _] | (_ & s2' & tr3 & _ & Hx & ->)]; [done|].
  apply exec_ops_cons_inv in Hx as (tr1 & s3 & t3 & o3 & H3 & Hx).
  apply exec_write in H3 as (-> & -> & -> & ->).
  destruct Hx as [[? _] | (_ & s3' & tr4 & _ & Hx & ->)]; [done|].
  inversion Hx as [|? ? ? ? ? ? ? H4| |]; subst.
  apply exec_write in H4 as (-> & -> & -> & ->). simpl.
  split_and!; try done.
  unfold emplace. rewrite Ha. simpl. rewrite Hb. by destruct t.
Qed.

Lemma buffered_round_changes_nothing_witness :
  mkTx [mkAcct 0 1000; mkAcct 1 1000] {[0 := 950; 1 := 1050]} 0
  = mkTx [mkAcct 0 1000; mkAcct 1 1000] {[0 := 950; 1 := 1050]} 0.
Proof.
  refine (proj2 (proj2
    (buffered_round_changes_nothing alone (mkShared [mkAcct 0 1000; mkAcct 1 1000] 0)
       (mkTx [mkAcct 0 1000; mkAcct 1 1000] {[0 := 950; 1 := 1050]} 0)
       0 1 900 1100 950 1050 [] (mkShared [mkAcct 0 1000; mkAcct 1 1000] 0)
       (mkTx [mkAcct 0 1000; mkAcct 1 1000] {[0 := 950; 1 := 1050]} 0) RetVoid _ _ _))).
  - reflexivity.
  - reflexivity.
  - apply (run_ops_exec_ops 1). reflexivity.
Defined.

(** ** A transfer run alone *)

Lemma transfer_alone_conserves_witness :
  ∃ s' t' tr,
    run_ops 6 (mkShared [mkAcct 0 1000; mkAcct 1 70] 6) tx_init (transfer 0 1 1000 70)
    = Done s' t' RetVoid tr
    ∧ totalMoney (accts s') = totalMoney [mkAcct 0 1000; mkAcct 1 70]
    ∧ global_clock s' = to_uint (6 + 2).
Proof.
  refine (transfer_alone_conserves (mkShared [mkAcct 0 1000; mkAcct 1 70] 6) tx_init 0 1
            (mkAcct 0 1000) (mkAcct 1 70) _ _ _ _ _ _).
  - reflexivity.
  - discriminate.
  - reflexivity.
  - reflexivity.
  - unfold TRFR_AMT. simpl. lia.
  - unfold TRFR_AMT. simpl. lia.
Defined.

(** ** The barrier *)

Lemma arrived_insert l : ∀ i old new,
  l !! i = Some old →
  arrived (<[i := new]> l)
  = arrived l - (if old is Bar_add then 0 else 1) + (if new is Bar_add then 0 else 1).
Proof.
  induction l as [|x l IH]; intros [|i] old new Hi; simpl in *; try done.
  - simplify_eq. lia.
  - rewrite (IH _ _ _ Hi). lia.
Qed.

Lemma arrived_bounds l : 0 ≤ arrived l ≤ Z.of_nat (length l).
Proof. induction l as [|[] l IH]; simpl; lia. Qed.

Lemma arrived_replicate n : arrived (replicate n Bar_add) = 0.
Proof. induction n as [|n IH]; simpl; lia. Qed.

Section BarrierProofs.
Variable numThreads : Z.
Variable which : Z.

Lemma arrived_waiting l : ∀ i,
  l !! i = Some Bar_add → arrived l < Z.of_nat (length l).
Proof.
  induction l as [|x l IH]; intros [|i] Hi; simpl in *; try done.
  - simplify_eq. pose proof (arrived_bounds l). lia.
  - specialize (IH _ Hi). destruct x; lia.
Qed.

Lemma bar_ok_step b b' :
  Z.of_nat (length (callers b)) < 2 ^ 31 →
  bar_ok numThreads which b → bar_next numThreads which b b' →
  bar_ok numThreads which b' ∧ length (callers b') = length (callers b)
  ∧ arrived (callers b) ≤ arrived (callers b').
Proof.
  intros Hn (Hlen & Hslot & Hdone) [i Hstep]. unfold bar_step in Hstep.
  change (2 ^ 31) with 2147483648 in Hn.
  destruct (callers b !! i) as [pc|] eqn:Hi; [|done].
  pose proof (arrived_bounds (callers b)) as Hb.
  unfold bar_ok.
  destruct pc; cbn [barrier_step] in Hstep; try rewrite Hslot in Hstep; simplify_eq;
    cbn [barriers callers].
  - pose proof (arrived_waiting _ _ Hi) as Harr.
    rewrite (arrived_insert _ _ _ _ Hi), !length_insert.
    replace (to_int (arrived (callers b) + 1)) with (arrived (callers b) + 1) by wrap_arith.
    split_and!; try done; try lia.
    + unfold slot in *. destruct (0 <=? which); [|done].
      rewrite list_lookup_insert_eq; [f_equal; lia|]. by eapply lookup_lt_Some.
    + intros j Hj. apply list_lookup_insert_Some in Hj as [(_ & ? & _)|[_ Hj]]; [done|].
      apply Hdone in Hj. lia.
  - rewrite to_uint_id by (unfold is_uint; change (2 ^ 32) with 4294967296; lia).
    rewrite (arrived_insert _ _ _ _ Hi), !length_insert.
    destruct (arrived (callers b) <? numThreads) eqn:Hlt;
      replace (arrived (callers b) - 1 + 1) with (arrived (callers b)) by lia;
      (split_and!; [done | done | | done | lia]);
      intros j Hj; apply list_lookup_insert_Some in Hj as [(_ & Hpc & _)|[_ Hj]];
      try done; try (by eapply Hdone).
    by apply Z.ltb_ge in Hlt.
Qed.

Lemma bar_init_ok n : 0 ≤ which < 16 → bar_ok numThreads which (bar_init n).
Proof.
  intros Hw. unfold bar_ok, bar_init. cbn [barriers callers]. split_and!.
  - apply length_replicate.
  - rewrite arrived_replicate. unfold slot.
    assert ((0 <=? which) = true) as -> by (apply Z.leb_le; lia).
    apply lookup_replicate_2. lia.
  - intros i [Hi _]%lookup_replicate. done.
Qed.

Lemma bar_reachable_ok n b :
  0 ≤ which < 16 → Z.of_nat n < 2 ^ 31 →
  rtc (bar_next numThreads which) (bar_init n) b →
  bar_ok numThreads which b ∧ length (callers b) = n.
Proof.
  intros Hw Hn Hsteps.
  assert (H0 : bar_ok numThreads which (bar_init n) ∧ length (callers (bar_init n)) = n).
  { split; [by apply bar_init_ok|]. apply length_replicate. }
  induction Hsteps as [|b1 b2 b3 Hs _ IH]; [done|].
  destruct H0 as [Hok Hlen]. apply IH.
  destruct (bar_ok_step b1 b2) as (Hok' & Hlen' & _); try done; [by rewrite Hlen|].
  split; [done|]. by rewrite Hlen'.
Qed.
End BarrierProofs.

(** X19: as long as fewer than 2^31 threads call it, a thread returns
    from [barrier(which)] only when at least [numThreads] callers have
    done their increment, and the counter is the number of callers that
    have. *)
Theorem barrier_holds_back numThreads which n b i :
  0 ≤ which < 16 → Z.of_nat n < 2 ^ 31 →
  rtc (bar_next numThreads which) (bar_init n) b →
  callers b !! i = Some Bar_done →
  numThreads ≤ arrived (callers b)
  ∧ arrived (callers b) ≤ Z.of_nat n
  ∧ slot (barriers b) which = Some (arrived (callers b)).
Proof.
  intros Hw Hn Hsteps Hi.
  destruct (bar_reachable_ok numThreads which n b Hw Hn Hsteps) as [(Hlen & Hslot & Hdone) Hl].
  split_and!; [by eapply Hdone | | done].
  pose proof (arrived_bounds (callers b)). lia.
Qed.

Lemma bar_run_rtc numThreads which sched : ∀ b b',
  bar_run numThreads which sched b = Some b' → rtc (bar_next numThreads which) b b'.
Proof.
  induction sched as [|i sched IH]; intros b b'; simpl.
  - intros [= <-]. apply rtc_refl.
  - destruct (bar_step numThreads which i b) as [b1|] eqn:Hs; [|done].
    intros Hr. eapply rtc_l; [by exists i|]. by apply IH.
Qed.

Lemma barrier_holds_back_witness :
  2 ≤ arrived [Bar_done; Bar_wait]
  ∧ arrived [Bar_done; Bar_wait] ≤ Z.of_nat 2
  ∧ slot (barriers (mkBarrier (<[0%nat := 2]> (replicate 16 0)) [Bar_done; Bar_wait])) 0
    = Some (arrived [Bar_done; Bar_wait]).
Proof.
  refine (barrier_holds_back 2 0 2
            (mkBarrier (<[0%nat := 2]> (replicate 16 0)) [Bar_done; Bar_wait]) 0%nat _ _ _ _).
  - lia.
  - simpl. lia.
  - apply (bar_run_rtc 2 0 [0; 1; 0]%nat). reflexivity.
  - reflexivity.
Defined.

Lemma insert_replicate_boundary {A} (x y : A) k l :
  <[k := x]> (replicate k x ++ y :: l) = replicate (S k) x ++ l.
Proof. induction k as [|k IH]; simpl; [done|]. by f_equal. Qed.

Lemma lookup_replicate_boundary {A} (x y : A) k l :
  (replicate k x ++ y :: l) !! k = Some y.
Proof. induction k as [|k IH]; simpl; done. Qed.

Section BarrierRuns.
Variable numThreads : Z.
Variable which : Z.
Hypothesis Hwhich : 0 ≤ which < 16.

Lemma slot_insert v :
  slot (<[Z.to_nat which := v]> (replicate 16 0)) which = Some v.
Proof.
  unfold slot. assert ((0 <=? which) = true) as -> by (apply Z.leb_le; lia).
  apply list_lookup_insert_eq. rewrite length_replicate. lia.
Qed.

(** The callers enter one after the other. *)
Lemma bar_run_arrive m : ∀ k j,
  Z.of_nat (k + m) < 2 ^ 31 →
  bar_run numThreads which (seq k m)
    (mkBarrier (<[Z.to_nat which := Z.of_nat k]> (replicate 16 0))
       (replicate k Bar_wait ++ replicate (m + j) Bar_add))
  = Some (mkBarrier (<[Z.to_nat which := Z.of_nat (k + m)]> (replicate 16 0))
            (replicate (k + m) Bar_wait ++ replicate j Bar_add)).
Proof.
  induction m as [|m IH]; intros k j Hk.
  - by rewrite Nat.add_0_r.
  - change (replicate (S m + j) Bar_add) with (Bar_add :: replicate (m + j) Bar_add).
    cbn [seq bar_run]. unfold bar_step. cbn [callers barriers].
    rewrite lookup_replicate_boundary. cbn [barrier_step].
    rewrite slot_insert, list_insert_insert_eq, insert_replicate_boundary.
    replace (to_int (Z.of_nat k + 1)) with (Z.of_nat (S k)) by wrap_arith.
    rewrite (IH (S k) j) by lia. by rewrite Nat.add_succ_r.
Qed.

(** Once [numThreads] callers have entered, the waiting ones leave. *)
Lemma bar_run_leave m : ∀ k j a c,
  0 ≤ c → numThreads ≤ c < 2 ^ 31 →
  bar_run numThreads which (seq k m)
    (mkBarrier (<[Z.to_nat which := c]> (replicate 16 0))
       (replicate k Bar_done ++ replicate (m + j) Bar_wait ++ a))
  = Some (mkBarrier (<[Z.to_nat which := c]> (replicate 16 0))
            (replicate (k + m) Bar_done ++ replicate j Bar_wait ++ a)).
Proof.
  induction m as [|m IH]; intros k j a c Hc0 Hc.
  - by rewrite Nat.add_0_r.
  - change (replicate (S m + j) Bar_wait ++ a)
      with (Bar_wait :: replicate (m + j) Bar_wait ++ a).
    cbn [seq bar_run]. unfold bar_step. cbn [callers barriers].
    rewrite lookup_replicate_boundary. cbn [barrier_step]. rewrite slot_insert.
    rewrite to_uint_id by wrap_arith.
    assert ((c <? numThreads) = false) as -> by (apply Z.ltb_ge; lia).
    rewrite insert_replicate_boundary.
    rewrite (IH (S k) j a c Hc0 Hc). by rewrite Nat.add_succ_r.
Qed.
End BarrierRuns.

(** X20: when at least [numThreads] threads call the barrier, letting
    each of them step once and then once more brings all of them out of
    it. *)
Theorem barrier_opens numThreads which (n : nat) :
  0 ≤ which < 16 → numThreads ≤ Z.of_nat n < 2 ^ 31 →
  bar_run numThreads which (seq 0 n ++ seq 0 n) (bar_init n)
  = Some (mkBarrier (<[Z.to_nat which := Z.of_nat n]> (replicate 16 0))
            (replicate n Bar_done)).
Proof.
  intros Hw Hn.
  assert (Happ : ∀ l1 l2 b, bar_run numThreads which (l1 ++ l2) b
            = match bar_run numThreads which l1 b with
              | Some b' => bar_run numThreads which l2 b'
              | None => None
              end).
  { induction l1 as [|i l1 IH]; intros l2 b; simpl; [done|].
    destruct (bar_step numThreads which i b); [apply IH | done]. }
  rewrite Happ. unfold bar_init.
  assert (Hz : replicate 16 0 = <[Z.to_nat which := Z.of_nat 0]> (replicate 16 0)).
  { symmetry. apply list_insert_id. apply lookup_replicate_2. lia. }
  rewrite Hz at 1.
  pose proof (bar_run_arrive numThreads which Hw n 0 0) as H1.
  pose proof (bar_run_leave numThreads which Hw n 0 0 [] (Z.of_nat n)) as H2.
  remember (replicate 16 0) as zeros eqn:Hzeros. clear Hzeros Hz.
  rewrite !Nat.add_0_r in H1, H2. cbn [replicate app Nat.add] in H1, H2.
  rewrite !app_nil_r in H1, H2. rewrite H1 by lia. rewrite H2 by lia. by rewrite ?app_nil_r.
Qed.

Lemma barrier_opens_witness :
  bar_run 4 0 (seq 0 5 ++ seq 0 5) (bar_init 5)
  = Some (mkBarrier (<[Z.to_nat 0 := Z.of_nat 5]> (replicate 16 0)) (replicate 5 Bar_done)).
Proof.
  refine (barrier_opens 4 0 5 _ _).
  - lia.
  - simpl. lia.
Defined.

(** X21: with one caller more than [numThreads], as in [main], the
    first caller leaves the barrier as soon as [numThreads] callers have
    entered, while the last one has not entered yet. *)
Theorem barrier_leaks numThreads which (m : nat) :
  0 ≤ which < 16 → numThreads ≤ Z.of_nat (S m) < 2 ^ 31 →
  bar_run numThreads which (seq 0 (S m) ++ [0%nat]) (bar_init (S (S m)))
  = Some (mkBarrier (<[Z.to_nat which := Z.of_nat (S m)]> (replicate 16 0))
            (Bar_done :: replicate m Bar_wait ++ [Bar_add])).
Proof.
  intros Hw Hn.
  assert (Happ : ∀ l1 l2 b, bar_run numThreads which (l1 ++ l2) b
            = match bar_run numThreads which l1 b with
              | Some b' => bar_run numThreads which l2 b'
              | None => None
              end).
  { induction l1 as [|i l1 IH]; intros l2 b; simpl; [done|].
    destruct (bar_step numThreads which i b); [apply IH | done]. }
  rewrite Happ. unfold bar_init.
  assert (Hz : replicate 16 0 = <[Z.to_nat which := Z.of_nat 0]> (replicate 16 0)).
  { symmetry. apply list_insert_id. apply lookup_replicate_2. lia. }
  rewrite Hz at 1.
  pose proof (bar_run_arrive numThreads which Hw (S m) 0 1) as H1.
  pose proof (bar_run_leave numThreads which Hw 1 0 m [Bar_add] (Z.of_nat (S m))) as H2.
  remember (replicate 16 0) as zeros eqn:Hzeros. clear Hzeros Hz.
  replace (S m + 1)%nat with (S (S m)) in H1 by lia.
  change (0 + S m)%nat with (S m) in H1.
  change (replicate 0 Bar_wait ++ replicate (S (S m)) Bar_add)
    with (replicate (S (S m)) Bar_add) in H1.
  rewrite H1 by lia.
  change (seq 0 1) with [0%nat] in H2. apply H2; lia.
Qed.

Lemma barrier_leaks_witness :
  bar_run 4 0 (seq 0 4 ++ [0%nat]) (bar_init 5)
  = Some (mkBarrier (<[Z.to_nat 0 := Z.of_nat 4]> (replicate 16 0))
            (Bar_done :: replicate 3 Bar_wait ++ [Bar_add])).
Proof.
  refine (barrier_leaks 4 0 3 _ _).
  - lia.
  - simpl. lia.
Defined.
